(** * UserService: the Express back-end of node/index.js over its Postgres table

    The service has three routes.  [GET /api] answers a fixed text,
    [GET /api/all] sends [SELECT * FROM users] and answers the rows,
    [POST /api/form] builds an INSERT statement by placing the three body
    fields into a template string and answers the request body.  Both
    database routes catch a rejected query and answer 500.

    The handlers are embedded as state-passing functions over the store the
    client is connected to.  What the store does with a query text is not in
    the repository; it is modelled here by a lexer, a parser and an executor
    for the statements that occur in this development (see [Module Sql]).
    The process that runs the handlers lives only in front of a store it can
    reach (see [Process]). *)

From Stdlib Require Import ZArith String Ascii DecimalString DecimalZ Lia.
From stdpp Require Import gmap strings list.

Local Open Scope string_scope.
Local Open Scope list_scope.
Local Open Scope Z_scope.

(** ** Values of a parsed request body *)

(** [express.json()] and [express.urlencoded()] fill [req.body] with an
    object.  Its fields are modelled for the scalar values: strings, integral
    numbers (magnitude below 2^53, where JavaScript prints plain decimal
    digits), booleans and null.  A field that is absent reads as
    [undefined], which is [None] of a lookup. *)
Inductive JsVal :=
| JStr (s : string)
| JNum (z : Z)
| JBool (b : bool)
| JNull.

#[global] Instance JsVal_eq_dec : EqDecision JsVal.
Proof. solve_decision. Defined.

(** [String(v)] as a template literal applies it to [${v}]. *)
Definition js_number_to_string (z : Z) : string :=
  NilZero.string_of_int (Z.to_int z).

Definition js_to_string (v : option JsVal) : string :=
  match v with
  | None => "undefined"
  | Some (JStr s) => s
  | Some (JNum z) => js_number_to_string z
  | Some (JBool true) => "true"
  | Some (JBool false) => "false"
  | Some JNull => "null"
  end.

(** ** Rows of the users table *)

Record User := mkUser {
  u_id : Z;
  u_name : string;
  u_email : string;
  u_age : Z
}.

#[global] Instance User_eq_dec : EqDecision User.
Proof. solve_decision. Defined.

(** The table together with its [users_id_seq]: [next_id] is the value the
    next [nextval] hands out.  [rows] is in the order a scan returns the
    rows, which for a table that only receives inserts is the order of
    insertion. *)
Record Table := mkTable {
  rows : list User;
  next_id : Z
}.

(** The store behind [client]: whether the connection works, and the users
    table when it exists.  The service is alive only in front of a store with
    [reachable = true] (see [Process] below); what the handlers and [query]
    give on a store with [reachable = false] is the rejected promise of a
    query on a dead connection, which no client of the service ever
    observes. *)
Record Store := mkStore {
  reachable : bool;
  users : option Table
}.

Definition INT_MIN : Z := -2147483648.
Definition INT_MAX : Z := 2147483647.

(** ** The store's reading of a query text

    The store is a PostgreSQL server, outside the repository.  The model
    below follows its behaviour for the schema that [createTable] declares:
    which texts are statements, how a literal is assigned to a column, which
    constraint rejects a row, and what a rejected statement leaves behind. *)

Module Sql.

Inductive SqlError :=
| connection_failure
| syntax_error
| undefined_table
| undefined_column
| datatype_mismatch
| invalid_text_representation
| string_data_right_truncation
| numeric_value_out_of_range
| sequence_exhausted
| not_null_violation (column : string)
| unique_violation (constraint : string).

(** *** Lexer

    One pass over the characters with an explicit scanner state.  Covered:
    white space, [--] comments up to the end of the line, ['...'] literals
    with [''] for a quote inside (backslash is an ordinary character, as with
    standard_conforming_strings), unsigned integer and decimal literals,
    identifiers folded to lower case, and the punctuation of the statements
    below.  Not covered, and lexed as stray characters that no statement
    accepts: quoted identifiers, block comments, E'' and dollar quoting,
    exponents, operators. *)

Inductive token :=
| TId (s : string)
| TStr (s : string)
| TNum (ip : string) (fr : option string)
| TLParen | TRParen | TComma | TSemi | TStar | TMinus | TPlus | TDot
| TOther (c : ascii).

Inductive lex_state :=
| LDefault
| LDash
| LComment
| LStr (buf : string)
| LStrQ (buf : string)
| LNum (ip : string)
| LFrac (ip fr : string)
| LDot
| LIdent (buf : string).

Definition code (c : ascii) : nat := nat_of_ascii c.

Definition is_nul (c : ascii) : bool := Nat.eqb (code c) 0.
Definition is_quote (c : ascii) : bool := Nat.eqb (code c) 39.
Definition is_digit (c : ascii) : bool :=
  Nat.leb 48 (code c) && Nat.leb (code c) 57.
Definition is_upper (c : ascii) : bool :=
  Nat.leb 65 (code c) && Nat.leb (code c) 90.
Definition is_lower (c : ascii) : bool :=
  Nat.leb 97 (code c) && Nat.leb (code c) 122.
Definition is_letter (c : ascii) : bool := is_upper c || is_lower c.
Definition is_space (c : ascii) : bool :=
  Nat.eqb (code c) 32 || Nat.eqb (code c) 9 || Nat.eqb (code c) 10
  || Nat.eqb (code c) 13 || Nat.eqb (code c) 12.
Definition is_newline (c : ascii) : bool :=
  Nat.eqb (code c) 10 || Nat.eqb (code c) 13.
Definition is_ident_start (c : ascii) : bool :=
  is_letter c || Nat.eqb (code c) 95 || Nat.leb 128 (code c).
Definition is_ident_char (c : ascii) : bool :=
  is_ident_start c || is_digit c || Nat.eqb (code c) 36.

Definition to_lower (c : ascii) : ascii :=
  if is_upper c then ascii_of_nat (code c + 32) else c.

Definition snoc (s : string) (c : ascii) : string := s +:+ String c "".

Definition step_default (c : ascii) : list token * lex_state :=
  if is_space c then ([], LDefault)
  else if is_quote c then ([], LStr "")
  else if is_digit c then ([], LNum (String c ""))
  else if is_ident_start c then ([], LIdent (String (to_lower c) ""))
  else if Nat.eqb (code c) 45 then ([], LDash)
  else if Nat.eqb (code c) 46 then ([], LDot)
  else if Nat.eqb (code c) 40 then ([TLParen], LDefault)
  else if Nat.eqb (code c) 41 then ([TRParen], LDefault)
  else if Nat.eqb (code c) 44 then ([TComma], LDefault)
  else if Nat.eqb (code c) 59 then ([TSemi], LDefault)
  else if Nat.eqb (code c) 42 then ([TStar], LDefault)
  else if Nat.eqb (code c) 43 then ([TPlus], LDefault)
  else ([TOther c], LDefault).

Definition emit (t : token) (r : list token * lex_state) : list token * lex_state :=
  (t :: r.1, r.2).

Definition step (st : lex_state) (c : ascii) : option (list token * lex_state) :=
  if is_nul c then None
  else match st with
  | LDefault => Some (step_default c)
  | LDash =>
      if Nat.eqb (code c) 45 then Some ([], LComment)
      else Some (emit TMinus (step_default c))
  | LComment =>
      if is_newline c then Some ([], LDefault) else Some ([], LComment)
  | LStr buf =>
      if is_quote c then Some ([], LStrQ buf) else Some ([], LStr (snoc buf c))
  | LStrQ buf =>
      if is_quote c then Some ([], LStr (snoc buf c))
      else Some (emit (TStr buf) (step_default c))
  | LNum ip =>
      if is_digit c then Some ([], LNum (snoc ip c))
      else if Nat.eqb (code c) 46 then Some ([], LFrac ip "")
      else if is_ident_start c then None
      else Some (emit (TNum ip None) (step_default c))
  | LFrac ip fr =>
      if is_digit c then Some ([], LFrac ip (snoc fr c))
      else if is_ident_start c then None
      else Some (emit (TNum ip (Some fr)) (step_default c))
  | LDot =>
      if is_digit c then Some ([], LFrac "" (String c ""))
      else Some (emit TDot (step_default c))
  | LIdent buf =>
      if is_ident_char c then Some ([], LIdent (snoc buf (to_lower c)))
      else Some (emit (TId buf) (step_default c))
  end.

Fixpoint lex_run (st : lex_state) (s : string) : option (list token * lex_state) :=
  match s with
  | EmptyString => Some ([], st)
  | String c s' =>
      match step st c with
      | None => None
      | Some (out, st') =>
          match lex_run st' s' with
          | None => None
          | Some (out', st'') => Some (out ++ out', st'')
          end
      end
  end.

Definition lex_finish (st : lex_state) : option (list token) :=
  match st with
  | LDefault | LComment => Some []
  | LDash => Some [TMinus]
  | LStr _ => None
  | LStrQ buf => Some [TStr buf]
  | LNum ip => Some [TNum ip None]
  | LFrac ip fr => Some [TNum ip (Some fr)]
  | LDot => Some [TDot]
  | LIdent buf => Some [TId buf]
  end.

Definition lex (s : string) : option (list token) :=
  match lex_run LDefault s with
  | None => None
  | Some (out, st) =>
      match lex_finish st with
      | None => None
      | Some last => Some (out ++ last)
      end
  end.

(** *** Parser

    The simple-query protocol takes several statements separated by
    semicolons in one text.  The statements of the fragment are the three the
    service sends (the schema statement, the select and the insert into the
    three named columns, with one or more rows of literals) and the two
    table-wide statements [DROP TABLE users] and [DELETE FROM users].  Any
    other token sequence is a syntax error of the model. *)

Inductive Expr :=
| EStr (s : string)
| ENum (neg : bool) (ip : string) (fr : option string)
| EIdent (s : string).

Inductive Stmt :=
| SCreate
| SSelect
| SInsert (vals : list (Expr * Expr * Expr))
| SDrop
| SDelete.

(** A sign directly before a numeric literal belongs to it. *)
Inductive ptoken :=
| PTok (t : token)
| PNum (neg : bool) (ip : string) (fr : option string).

Fixpoint signed (ts : list token) : list ptoken :=
  match ts with
  | [] => []
  | TMinus :: TNum ip fr :: ts' => PNum true ip fr :: signed ts'
  | TPlus :: TNum ip fr :: ts' => PNum false ip fr :: signed ts'
  | TNum ip fr :: ts' => PNum false ip fr :: signed ts'
  | t :: ts' => PTok t :: signed ts'
  end.

Definition expr_of (t : ptoken) : option Expr :=
  match t with
  | PTok (TStr s) => Some (EStr s)
  | PTok (TId s) => Some (EIdent s)
  | PNum neg ip fr => Some (ENum neg ip fr)
  | _ => None
  end.

Fixpoint parse_rows (ts : list ptoken) : option (list (Expr * Expr * Expr)) :=
  match ts with
  | PTok TLParen :: a :: PTok TComma :: b :: PTok TComma :: c :: PTok TRParen :: rest =>
      match expr_of a, expr_of b, expr_of c with
      | Some ea, Some eb, Some ec =>
          match rest with
          | [] => Some [(ea, eb, ec)]
          | PTok TComma :: rest' =>
              match parse_rows rest' with
              | Some more => Some ((ea, eb, ec) :: more)
              | None => None
              end
          | _ => None
          end
      | _, _, _ => None
      end
  | _ => None
  end.

(** The token sequence of the schema statement of [createTable]. *)
Definition create_table_tokens : list token :=
  [TId "create"; TId "table"; TId "if"; TId "not"; TId "exists"; TId "users";
   TLParen;
   TId "id"; TId "serial"; TId "primary"; TId "key"; TComma;
   TId "name"; TId "varchar"; TLParen; TNum "255" None; TRParen;
     TId "unique"; TId "not"; TId "null"; TComma;
   TId "email"; TId "varchar"; TLParen; TNum "255" None; TRParen;
     TId "unique"; TId "not"; TId "null"; TComma;
   TId "age"; TId "int"; TId "not"; TId "null";
   TRParen].

#[global] Instance token_eq_dec : EqDecision token.
Proof. solve_decision. Defined.

Definition parse_stmt (ts : list token) : option Stmt :=
  match ts with
  | TId "insert" :: TId "into" :: TId "users" :: TLParen :: TId "name" :: TComma
      :: TId "email" :: TComma :: TId "age" :: TRParen :: TId "values" :: vs =>
      match parse_rows (signed vs) with
      | Some r => Some (SInsert r)
      | None => None
      end
  | [TId "select"; TStar; TId "from"; TId "users"] => Some SSelect
  | [TId "drop"; TId "table"; TId "users"] => Some SDrop
  | [TId "delete"; TId "from"; TId "users"] => Some SDelete
  | _ => if decide (ts = create_table_tokens) then Some SCreate else None
  end.

(** Cut the tokens at the semicolons; [cur] holds the statement being read,
    last token first. *)
Fixpoint split_stmts (cur : list token) (ts : list token) : list (list token) :=
  match ts with
  | [] => [rev cur]
  | TSemi :: ts' => rev cur :: split_stmts [] ts'
  | t :: ts' => split_stmts (t :: cur) ts'
  end.

Fixpoint parse_all (ss : list (list token)) : option (list Stmt) :=
  match ss with
  | [] => Some []
  | [] :: ss' => parse_all ss'
  | s :: ss' =>
      match parse_stmt s, parse_all ss' with
      | Some st, Some sts => Some (st :: sts)
      | _, _ => None
      end
  end.

Definition parse (ts : list token) : option (list Stmt) :=
  parse_all (split_stmts [] ts).

(** *** Assignment of a literal to a column

    [name] and [email] are VARCHAR(255) and [age] is INT; all three are NOT
    NULL without a default.  A text literal takes the column's input
    conversion, a number assigned to a text column is printed, a number with
    a fraction assigned to [age] is rounded half away from zero.  The key
    words [null] and [default] give NULL.  Any other identifier is a column
    reference, which a VALUES list cannot resolve. *)

Definition digits_value (s : string) : Z :=
  match NilEmpty.uint_of_string s with
  | Some d => Z.of_uint d
  | None => 0
  end.

Definition rounds_up (fr : option string) : bool :=
  match fr with
  | Some (String c _) => Nat.leb 53 (code c)
  | _ => false
  end.

Definition number_value (neg : bool) (ip : string) (fr : option string) : Z :=
  let m := digits_value ip + (if rounds_up fr then 1 else 0) in
  if neg then - m else m.

Definition in_int_range (z : Z) : bool := (INT_MIN <=? z) && (z <=? INT_MAX).

Fixpoint all_chars (p : ascii -> bool) (s : string) : bool :=
  match s with
  | EmptyString => true
  | String c s' => p c && all_chars p s'
  end.

Fixpoint drop_spaces (s : string) : string :=
  match s with
  | String c s' => if is_space c then drop_spaces s' else s
  | EmptyString => EmptyString
  end.

Fixpoint span_digits (s : string) : string * string :=
  match s with
  | String c s' =>
      if is_digit c then let (d, r) := span_digits s' in (String c d, r)
      else (EmptyString, s)
  | EmptyString => (EmptyString, EmptyString)
  end.

(** The integer input conversion: optional blanks, optional sign, digits,
    optional blanks. *)
Definition int4in (s : string) : SqlError + Z :=
  let s1 := drop_spaces s in
  let '(neg, s2) :=
    match s1 with
    | String "-" r => (true, r)
    | String "+" r => (false, r)
    | _ => (false, s1)
    end in
  let (d, r) := span_digits s2 in
  match d with
  | EmptyString => inl invalid_text_representation
  | _ =>
      if all_chars is_space r then
        let z := if neg then - digits_value d else digits_value d in
        if in_int_range z then inr z else inl numeric_value_out_of_range
      else inl invalid_text_representation
  end.

(** The length coercion of VARCHAR(255): excess blanks are cut, any other
    excess is an error.  The store counts characters; a [string] here is a
    sequence of bytes and [String.length] counts bytes.  The two agree on
    ASCII text (see [ascii_text]), and a text of at most 255 bytes has at
    most 255 characters; the statements about longer names are made for
    ASCII names only. *)
Definition varchar255 (s : string) : SqlError + string :=
  if Nat.leb (String.length s) 255 then inr s
  else if all_chars (fun c => Nat.eqb (code c) 32)
            (substring 255 (String.length s - 255) s)
       then inr (substring 0 255 s)
       else inl string_data_right_truncation.

Definition number_text (neg : bool) (ip : string) (fr : option string) : string :=
  match fr with
  | None | Some EmptyString =>
      NilZero.string_of_int (Z.to_int (number_value neg ip None))
  | Some f =>
      let zero := (digits_value ip =? 0) && all_chars (fun c => Nat.eqb (code c) 48) f in
      (if neg && negb zero then "-" else "")
        +:+ NilZero.string_of_int (Z.to_int (digits_value ip)) +:+ "." +:+ f
  end.

Definition is_null_word (s : string) : bool :=
  String.eqb s "null" || String.eqb s "default".

Definition is_bool_word (s : string) : bool :=
  String.eqb s "true" || String.eqb s "false".

Definition to_varchar (e : Expr) : SqlError + option string :=
  match e with
  | EStr s =>
      match varchar255 s with
      | inl err => inl err
      | inr v => inr (Some v)
      end
  | ENum neg ip fr => inr (Some (number_text neg ip fr))
  | EIdent s =>
      if is_null_word s then inr None
      else if is_bool_word s then inr (Some s)
      else inl undefined_column
  end.

Definition to_int (e : Expr) : SqlError + option Z :=
  match e with
  | EStr s =>
      match int4in s with
      | inl err => inl err
      | inr z => inr (Some z)
      end
  | ENum neg ip fr =>
      let z := number_value neg ip fr in
      if in_int_range z then inr (Some z) else inl numeric_value_out_of_range
  | EIdent s =>
      if is_null_word s then inr None
      else if is_bool_word s then inl datatype_mismatch
      else inl undefined_column
  end.

Definition Values : Type := option string * option string * option Z.

Definition coerce_row (r : Expr * Expr * Expr) : SqlError + Values :=
  let '(en, ee, ea) := r in
  match to_varchar en with
  | inl err => inl err
  | inr n =>
      match to_varchar ee with
      | inl err => inl err
      | inr e =>
          match to_int ea with
          | inl err => inl err
          | inr a => inr (n, e, a)
          end
      end
  end.

Fixpoint coerce_rows (rs : list (Expr * Expr * Expr)) : SqlError + list Values :=
  match rs with
  | [] => inr []
  | r :: rs' =>
      match coerce_row r with
      | inl err => inl err
      | inr v =>
          match coerce_rows rs' with
          | inl err => inl err
          | inr vs => inr (v :: vs)
          end
      end
  end.

(** *** Execution

    A row takes its id from the sequence first, then the NOT NULL and the
    three unique constraints are checked.  A violation rejects the row, but
    the sequence value stays consumed: an error carries the sequence position
    reached. *)

Definition insert_row (t : Table) (v : Values) : (SqlError * Z) + Table :=
  if INT_MAX <? next_id t then inl (sequence_exhausted, next_id t)
  else
    let i := next_id t in
    match v with
    | (None, _, _) => inl (not_null_violation "name", i + 1)
    | (Some _, None, _) => inl (not_null_violation "email", i + 1)
    | (Some _, Some _, None) => inl (not_null_violation "age", i + 1)
    | (Some n, Some e, Some a) =>
        if bool_decide (i ∈ u_id <$> rows t)
        then inl (unique_violation "users_pkey", i + 1)
        else if bool_decide (n ∈ u_name <$> rows t)
        then inl (unique_violation "users_name_key", i + 1)
        else if bool_decide (e ∈ u_email <$> rows t)
        then inl (unique_violation "users_email_key", i + 1)
        else inr {| rows := rows t ++ [mkUser i n e a]; next_id := i + 1 |}
    end.

Fixpoint insert_rows (t : Table) (vs : list Values) : (SqlError * Z) + Table :=
  match vs with
  | [] => inr t
  | v :: vs' =>
      match insert_row t v with
      | inl err => inl err
      | inr t' => insert_rows t' vs'
      end
  end.

(** One statement on the table as the transaction sees it.  The result is
    the new table and the rows the statement returns, or an error with the
    position of the table's sequence when the statement moved it. *)
Definition exec_stmt (s : Stmt) (cur : option Table)
  : (SqlError * option Z) + (option Table * list User) :=
  match s, cur with
  | SCreate, Some t => inr (Some t, [])
  | SCreate, None => inr (Some {| rows := []; next_id := 1 |}, [])
  | _, None => inl (undefined_table, None)
  | SSelect, Some t => inr (Some t, rows t)
  | SDrop, Some t => inr (None, [])
  | SDelete, Some t => inr (Some {| rows := []; next_id := next_id t |}, [])
  | SInsert rs, Some t =>
      match coerce_rows rs with
      | inl err => inl (err, None)
      | inr vs =>
          match insert_rows t vs with
          | inl (err, adv) => inl (err, Some adv)
          | inr t' => inr (Some t', [])
          end
      end
  end.

Definition is_some {A} (o : option A) : bool :=
  match o with Some _ => true | None => false end.

(** The statements of one query text run in one implicit transaction.
    [own] says that the table at hand is still the one the transaction
    started with, and [seq] is the position of that table's sequence, the
    only thing that survives a rollback. *)
Fixpoint exec_all (ss : list Stmt) (cur : option Table) (own : bool) (seq : Z)
  : (SqlError * Z) + (option Table * list (list User)) :=
  match ss with
  | [] => inr (cur, [])
  | s :: ss' =>
      match exec_stmt s cur with
      | inl (err, adv) =>
          inl (err, if own then match adv with Some n => n | None => seq end else seq)
      | inr (cur', res) =>
          let own' := own && is_some cur' in
          let seq' := if own' then match cur' with Some t => next_id t | None => seq end
                      else seq in
          match exec_all ss' cur' own' seq' with
          | inl err => inl err
          | inr (fin, rs) => inr (fin, res :: rs)
          end
      end
  end.

Definition QueryResult : Type := list (list User).

Definition rollback (st : Store) (seq : Z) : Store :=
  {| reachable := reachable st;
     users := match users st with
              | Some t => Some {| rows := rows t; next_id := seq |}
              | None => None
              end |}.

Definition parse_text (text : string) : option (list Stmt) :=
  match lex text with
  | None => None
  | Some ts => parse ts
  end.

(** [client.query(text)]: the promise is rejected with an error or resolved
    with the results of the statements.  The first branch is the rejected
    promise of a query on a dead connection; the service does not live to
    see it (see [Process]). *)
Definition query (text : string) (st : Store) : Store * (SqlError + QueryResult) :=
  if negb (reachable st) then (st, inl connection_failure)
  else
    match parse_text text with
    | None => (st, inl syntax_error)
    | Some ss =>
        let seq := match users st with Some t => next_id t | None => 0 end in
        match exec_all ss (users st) (is_some (users st)) seq with
        | inl (err, seq') => (rollback st seq', inl err)
        | inr (fin, rs) => ({| reachable := reachable st; users := fin |}, inr rs)
        end
    end.

End Sql.

(** ** The service: node/index.js *)

Import Sql.

Inductive Body :=
| BText (s : string)
| BRows (r : list User)
| BObject (o : gmap string JsVal)
| BError (e : SqlError)
| BUndefined.

Record Response := mkResponse {
  status : Z;
  body : Body
}.

(** [response.rows]: a text of one statement resolves to one result, a text
    of several to an array of results, which has no [rows]. *)
Definition response_rows (response : QueryResult) : Body :=
  match response with
  | [r] => BRows r
  | [] => BRows []
  | _ => BUndefined
  end.

Definition createTable_text : string :=
  "CREATE TABLE IF NOT EXISTS users 
    (id serial PRIMARY KEY, name VARCHAR (255) UNIQUE NOT NULL, 
    email VARCHAR (255) UNIQUE NOT NULL, age INT NOT NULL);".

(** [createTable]: the result of the awaited query is dropped. *)
Definition createTable (client : Store) : Store :=
  (query createTable_text client).1.

(** [app.get('/api', ...)]: [res.send] with the default status. *)
Definition get_api (client : Store) : Store * Response :=
  (client, {| status := 200; body := BText "Hello World!" |}).

(** [app.get('/api/all', ...)].  A resolved [response] is an object, so the
    test [if(response)] always takes the branch. *)
Definition get_api_all (client : Store) : Store * Response :=
  match query "SELECT * FROM users" client with
  | (client', inr response) =>
      (client', {| status := 200; body := response_rows response |})
  | (client', inl error) =>
      (client', {| status := 500; body := BError error |})
  end.

(** The template literal of the insert statement. *)
Definition insert_text (name email age : string) : string :=
  "INSERT INTO users(name, email, age) VALUES ('" +:+ name +:+ "', '"
    +:+ email +:+ "', " +:+ age +:+ ");".

(** [app.post('/api/form', ...)]. *)
Definition post_api_form (req_body : gmap string JsVal) (client : Store)
  : Store * Response :=
  let name := req_body !! "name" in
  let email := req_body !! "email" in
  let age := req_body !! "age" in
  match query (insert_text (js_to_string name) (js_to_string email)
                 (js_to_string age)) client with
  | (client', inr response) =>
      (client', {| status := 200; body := BObject req_body |})
  | (client', inl error) =>
      (client', {| status := 500; body := BError error |})
  end.

(** ** Predicates used in the statements *)

(** A text without a single quote and without a NUL character: inside
    ['...'] it is read back as it stands. *)
Definition plain (s : string) : bool :=
  all_chars (fun c => negb (is_quote c) && negb (is_nul c)) s.

Definition letters (s : string) : bool := all_chars is_letter s.

Definition digits (s : string) : bool :=
  negb (String.eqb s "") && all_chars is_digit s.

Fixpoint lower_string (s : string) : string :=
  match s with
  | EmptyString => EmptyString
  | String c s' => String (to_lower c) (lower_string s')
  end.

(** An age that is missing, null, a boolean, or a string of letters only
    (the empty string included). *)
Definition age_without_number (v : option JsVal) : bool :=
  match v with
  | None | Some JNull | Some (JBool _) => true
  | Some (JStr s) => letters s
  | Some (JNum _) => false
  end.

(** A name or email field that reads back as itself from the statement: a
    string without quote or NUL. *)
Definition plain_field (v : option JsVal) : bool :=
  match v with
  | Some (JStr s) => plain s
  | _ => true
  end.

(** Every id in the table was handed out by the sequence. *)
Definition table_ok (t : Table) : Prop :=
  Forall (fun u => u_id u < next_id t) (rows t).

Definition store_ok (st : Store) : Prop :=
  match users st with
  | Some t => table_ok t
  | None => True
  end.

(** The same for the table a transaction works on, and the link between
    that table and the sequence position the transaction tracks. *)
Definition cur_ok (cur : option Table) : Prop :=
  match cur with Some t => table_ok t | None => True end.

Definition cur_seq (cur : option Table) (seq : Z) : Prop :=
  match cur with Some t => next_id t = seq | None => False end.

Definition all_rows (st : Store) : list User :=
  match users st with
  | Some t => rows t
  | None => []
  end.

Definition has_fields (n e : string) (a : Z) (u : User) : bool :=
  String.eqb (u_name u) n && String.eqb (u_email u) e && (u_age u =? a).

Definition form (name email age : JsVal) : gmap string JsVal :=
  <["name" := name]> (<["email" := email]> (<["age" := age]> ∅)).

Definition bob_without_age : gmap string JsVal :=
  <["name" := JStr "bob"]> (<["email" := JStr "bob@example.com"]> ∅).

Definition bob_without_name : gmap string JsVal :=
  <["email" := JStr "bob@example.com"]> (<["age" := JNum 41]> ∅).

(** The store right after start-up on an empty database, and after alice
    was created. *)
Definition fresh_store : Store := createTable (mkStore true None).

Definition alice : User := mkUser 1 "alice" "alice@example.com" 30.

Definition alice_store : Store :=
  mkStore true (Some (mkTable [alice] 2)).

(** The tokens of the template up to the opening quote of the name. *)
Definition insert_head : list token :=
  [TId "insert"; TId "into"; TId "users"; TLParen; TId "name"; TComma;
   TId "email"; TComma; TId "age"; TRParen; TId "values"; TLParen].

(** ** The routes as one service *)

(** The three routes that [app] registers. *)
Inductive Request :=
| GET_api
| GET_api_all
| POST_api_form (req_body : gmap string JsVal).

Definition serve (r : Request) (client : Store) : Store * Response :=
  match r with
  | GET_api => get_api client
  | GET_api_all => get_api_all client
  | POST_api_form req_body => post_api_form req_body client
  end.

(** The store after a sequence of requests, served one after the other. *)
Fixpoint run (rs : list Request) (client : Store) : Store :=
  match rs with
  | [] => client
  | r :: rs' => run rs' (serve r client).1
  end.

(** A create-user body whose statement holds nothing but literals: name
    and email without single quote or NUL, and an age that is an integral
    number, a string of digits, or no number at all (see
    [age_without_number]).  These are the bodies for which the text sent is
    one insert of one row of literals. *)
Definition literal_age (v : option JsVal) : bool :=
  match v with
  | Some (JNum _) => true
  | Some (JStr s) => digits s || letters s
  | _ => true
  end.

Definition literal_body (req_body : gmap string JsVal) : bool :=
  plain_field (req_body !! "name") && plain_field (req_body !! "email")
  && literal_age (req_body !! "age").

Definition literal_request (r : Request) : bool :=
  match r with
  | POST_api_form req_body => literal_body req_body
  | _ => true
  end.

Definition read_request (r : Request) : bool :=
  match r with
  | POST_api_form _ => false
  | _ => true
  end.

(** What the schema promises of the rows: ids, names and emails pairwise
    distinct, ages in the INT range. *)
Definition rows_wf (l : list User) : Prop :=
  NoDup (u_id <$> l) /\ NoDup (u_name <$> l) /\ NoDup (u_email <$> l)
  /\ Forall (fun u => INT_MIN <= u_age u <= INT_MAX) l.

Definition store_wf (st : Store) : Prop :=
  store_ok st /\ rows_wf (all_rows st).

(** The same promise for the values of a row about to be inserted, and the
    rows of the table a transaction works on. *)
Definition values_ok (v : Values) : Prop :=
  match v with
  | (_, _, Some a) => INT_MIN <= a <= INT_MAX
  | _ => True
  end.

Definition cur_rows (cur : option Table) : list User :=
  match cur with Some t => rows t | None => [] end.

Fixpoint blanks (k : nat) : string :=
  match k with
  | O => EmptyString
  | S k' => String " " (blanks k')
  end.

Definition only_blanks (s : string) : bool :=
  all_chars (fun c => Nat.eqb (code c) 32) s.

(** ** The process

    [client.connect()] (index.js, line 15) is neither awaited nor caught,
    and the client has no error listener.  When the store cannot be reached
    the rejected promise, or the error event of a lost connection, ends the
    node process: a store with [reachable = false] is a store in front of
    which no service runs.  A handler is entered only while the process is
    alive. *)
Inductive Process :=
| Running (client : Store)
| Exited.

(** Start-up: connect, then [createTable]. *)
Definition start (db : Store) : Process :=
  if reachable db then Running (createTable db) else Exited.

(** One request to the process; [None] is no answer at all. *)
Definition request (r : Request) (p : Process) : Process * option Response :=
  match p with
  | Running client =>
      if reachable client then
        let (client', response) := serve r client in
        (Running client', Some response)
      else (Exited, None)
  | Exited => (Exited, None)
  end.

(** ** Age texts that are no number

    Texts of letters, digits, blanks and commas.  Among them the store reads
    as an integer expression only: a string of digits with blanks around it;
    a literal with an exponent or a radix prefix (a digit directly followed
    by e, x, o or b, as in 1e3 and 0x1F); and a CASE expression.  Every other
    text of these characters is rejected. *)
Definition is_blank (c : ascii) : bool := Nat.eqb (code c) 32.
Definition is_comma (c : ascii) : bool := Nat.eqb (code c) 44.

Definition age_char (c : ascii) : bool :=
  is_letter c || is_digit c || is_blank c || is_comma c.

Fixpoint digits_then_blanks (s : string) : bool :=
  match s with
  | EmptyString => true
  | String c s' =>
      if is_digit c then digits_then_blanks s' else all_chars is_blank s
  end.

(** Blanks, at least one digit, blanks. *)
Fixpoint padded_digits (s : string) : bool :=
  match s with
  | EmptyString => false
  | String c s' =>
      if is_blank c then padded_digits s'
      else is_digit c && digits_then_blanks s'
  end.

Definition radix_letter (c : ascii) : bool :=
  let n := code (to_lower c) in
  Nat.eqb n 101 || Nat.eqb n 120 || Nat.eqb n 111 || Nat.eqb n 98.

Fixpoint digit_then_radix (s : string) : bool :=
  match s with
  | String c s' =>
      match s' with
      | String d _ => (is_digit c && radix_letter d) || digit_then_radix s'
      | EmptyString => false
      end
  | EmptyString => false
  end.

Fixpoint skip_blanks (s : string) : string :=
  match s with
  | String c s' => if is_blank c then skip_blanks s' else s
  | EmptyString => EmptyString
  end.

(** The first word of a text and what follows it. *)
Fixpoint split_word (s : string) : string * string :=
  match s with
  | String c s' =>
      if is_letter c || is_digit c
      then let (w, r) := split_word s' in (String c w, r)
      else (EmptyString, s)
  | EmptyString => (EmptyString, EmptyString)
  end.

(** The word case followed by more than blanks. *)
Definition case_expression (s : string) : bool :=
  let (w, r) := split_word (skip_blanks s) in
  String.eqb (lower_string w) "case" && negb (all_chars is_blank r).

Definition age_text_rejected (s : string) : bool :=
  all_chars age_char s && negb (padded_digits s)
  && negb (digit_then_radix s) && negb (case_expression s).

(** The token that a scanner state still holds when the text ends, and the
    tokens that texts of these characters are made of. *)
Definition pending (st : lex_state) : list token :=
  match st with
  | LNum ip => [TNum ip None]
  | LIdent buf => [TId buf]
  | _ => []
  end.

Definition word_state (st : lex_state) : bool :=
  match st with
  | LDefault | LNum _ | LIdent _ => true
  | _ => false
  end.

Definition simple_token (t : token) : bool :=
  match t with
  | TId _ | TNum _ None | TComma => true
  | _ => false
  end.

(** A text of ASCII characters: one byte is one character. *)
Definition ascii_text (s : string) : bool :=
  all_chars (fun c => Nat.ltb (code c) 128) s.

(** ** The pages: react/src/components *)

(** The state of [PostUser]: [useState({name: '', age: '', email: ''})]. *)
Record UserForm := mkUserForm {
  f_name : string;
  f_age : string;
  f_email : string
}.

Definition empty_form : UserForm := mkUserForm "" "" "".

(** [onChangeForm(e)] with [e.target.name] and [e.target.value]: the spread
    copies the state and one field is replaced; an event of any other
    element sets nothing. *)
Definition onChangeForm (target_name target_value : string) (user : UserForm)
  : UserForm :=
  if String.eqb target_name "name" then
    {| f_name := target_value; f_age := f_age user; f_email := f_email user |}
  else if String.eqb target_name "age" then
    {| f_name := f_name user; f_age := target_value; f_email := f_email user |}
  else if String.eqb target_name "email" then
    {| f_name := f_name user; f_age := f_age user; f_email := target_value |}
  else user.

(** The body that [/api/form] parses from the form-encoded post of the
    state: every field is there and every value is a string. *)
Definition form_body (user : UserForm) : gmap string JsVal :=
  form (JStr (f_name user)) (JStr (f_email user)) (JStr (f_age user)).

(** [createUser]: the post is awaited; [then] runs on a 2xx answer and
    clears the form, [catch] runs otherwise and leaves the state. *)
Definition createUser (user : UserForm) (client : Store) : Store * UserForm :=
  let (client', response) := post_api_form (form_body user) client in
  if (200 <=? status response) && (status response <? 300)
  then (client', empty_form)
  else (client', user).

(** One [<li>] of [GetAllUser]: its key and the four texts it shows. *)
Record Item := mkItem {
  key : Z;
  item_id : Z;
  item_name : string;
  item_age : Z;
  item_email : string
}.

(** The effect of [GetAllUser]: [then] stores [response.data] on a 2xx
    answer, [catch] only logs, and [users] stays undefined. *)
Definition fetched_users (response : Response) : option (list User) :=
  if (200 <=? status response) && (status response <? 300) then
    match body response with
    | BRows l => Some l
    | _ => None
    end
  else None.

(** [users && users.map(user => <li key={user.id}> ... </li>)]. *)
Definition GetAllUser (users : option (list User)) : list Item :=
  match users with
  | None => []
  | Some l =>
      List.map (fun user =>
                  {| key := u_id user; item_id := u_id user;
                     item_name := u_name user; item_age := u_age user;
                     item_email := u_email user |}) l
  end.

(** A text that is none of the finitely many entries of a concrete list. *)
Ltac absent :=
  let H := fresh "H" in
  intros H; vm_compute in H;
  repeat (apply elem_of_cons in H as [H|H]; [discriminate H|]);
  now apply elem_of_nil in H.

(** The side conditions of a statement at concrete values. *)
Ltac side :=
  first
    [ vm_compute; reflexivity
    | apply Nat.ltb_lt; vm_compute; reflexivity
    | apply Nat.leb_le; vm_compute; reflexivity
    | unfold INT_MIN, INT_MAX; cbn; lia
    | absent
    | solve [repeat constructor] ].

(** * Facts about the store model *)

Section Lexing.

Lemma append_cons (c : ascii) (s1 s2 : string) :
  String c s1 +:+ s2 = String c (s1 +:+ s2).
Proof. reflexivity. Qed.

Lemma append_nil (s : string) : "" +:+ s = s.
Proof. reflexivity. Qed.

Lemma append_snoc (b : string) (c : ascii) (s : string) :
  snoc b c +:+ s = b +:+ String c s.
Proof.
  unfold snoc. induction b as [|x b IH].
  - reflexivity.
  - rewrite !append_cons. f_equal. exact IH.
Qed.

Lemma append_empty_r (s : string) : s +:+ "" = s.
Proof.
  induction s as [|c s IH]; [reflexivity|].
  rewrite append_cons. now rewrite IH.
Qed.

Lemma lex_run_app (st : lex_state) (s1 s2 : string) :
  lex_run st (s1 +:+ s2) =
  match lex_run st s1 with
  | None => None
  | Some (o1, st1) =>
      match lex_run st1 s2 with
      | None => None
      | Some (o2, st2) => Some (o1 ++ o2, st2)
      end
  end.
Proof.
  revert st. induction s1 as [|c s1 IH]; intros st.
  - rewrite append_nil. simpl.
    destruct (lex_run st s2) as [[o2 st2]|]; reflexivity.
  - rewrite append_cons. simpl.
    destruct (step st c) as [[o st']|]; [|reflexivity].
    rewrite IH. destruct (lex_run st' s1) as [[o1 st1]|]; [|reflexivity].
    destruct (lex_run st1 s2) as [[o2 st2]|]; [|reflexivity].
    now rewrite app_assoc.
Qed.

Lemma lex_run_str (buf s : string) :
  plain s = true -> lex_run (LStr buf) s = Some ([], LStr (buf +:+ s)).
Proof.
  revert buf. induction s as [|c s IH]; intros buf H; simpl.
  - now rewrite append_empty_r.
  - simpl in H. apply andb_prop in H as [Hc Hs].
    apply andb_prop in Hc as [Hq Hn].
    apply negb_true_iff in Hq. apply negb_true_iff in Hn.
    unfold step. rewrite Hn, Hq.
    rewrite (IH _ Hs). now rewrite append_snoc.
Qed.

Lemma digit_classes (c : ascii) :
  is_digit c = true ->
  is_nul c = false /\ is_ident_start c = false /\ is_space c = false
  /\ is_quote c = false.
Proof.
  destruct c as [[] [] [] [] [] [] [] []]; vm_compute; intros H;
    try discriminate H; repeat split.
Qed.

Lemma letter_classes (c : ascii) :
  is_letter c = true ->
  is_nul c = false /\ is_ident_start c = true /\ is_ident_char c = true
  /\ is_space c = false /\ is_quote c = false /\ is_digit c = false.
Proof.
  destruct c as [[] [] [] [] [] [] [] []]; vm_compute; intros H;
    try discriminate H; repeat split.
Qed.

Lemma lex_run_num (ip s : string) :
  all_chars is_digit s = true ->
  lex_run (LNum ip) s = Some ([], LNum (ip +:+ s)).
Proof.
  revert ip. induction s as [|c s IH]; intros ip H; simpl.
  - now rewrite append_empty_r.
  - simpl in H. apply andb_prop in H as [Hc Hs].
    destruct (digit_classes c Hc) as (Hn & _).
    unfold step. rewrite Hn, Hc.
    rewrite (IH _ Hs). now rewrite append_snoc.
Qed.

Lemma lex_run_ident (buf s : string) :
  letters s = true ->
  lex_run (LIdent buf) s = Some ([], LIdent (buf +:+ lower_string s)).
Proof.
  revert buf. induction s as [|c s IH]; intros buf H; simpl.
  - now rewrite append_empty_r.
  - unfold letters in H. simpl in H. apply andb_prop in H as [Hc Hs].
    destruct (letter_classes c Hc) as (Hn & _ & Hi & _).
    unfold step. rewrite Hn, Hi.
    rewrite (IH _ Hs). now rewrite append_snoc.
Qed.

Lemma lex_template_head :
  lex_run LDefault "INSERT INTO users(name, email, age) VALUES ('"
  = Some (insert_head, LStr "").
Proof. vm_compute. reflexivity. Qed.

Lemma lex_template_sep1 (n : string) :
  lex_run (LStr n) "', '" = Some ([TStr n; TComma], LStr "").
Proof. reflexivity. Qed.

Lemma lex_template_sep2 (e : string) :
  lex_run (LStr e) "', " = Some ([TStr e; TComma], LDefault).
Proof. reflexivity. Qed.

(** With a plain name and a plain email the two literals are read back as
    they were put in, and the rest of the text is lexed on its own. *)
Lemma lex_insert_text (n e a : string) :
  plain n = true -> plain e = true ->
  lex (insert_text n e a) =
  match lex_run LDefault (a +:+ ");") with
  | None => None
  | Some (o, st) =>
      match lex_finish st with
      | None => None
      | Some l =>
          Some (insert_head ++ TStr n :: TComma :: TStr e :: TComma :: o ++ l)
      end
  end.
Proof.
  intros Hn He. unfold lex, insert_text.
  rewrite lex_run_app, lex_template_head.
  rewrite lex_run_app, (lex_run_str _ _ Hn), append_nil.
  rewrite lex_run_app, lex_template_sep1.
  rewrite lex_run_app, (lex_run_str _ _ He), append_nil.
  rewrite lex_run_app, lex_template_sep2.
  destruct (lex_run LDefault (a +:+ ");")) as [[o st]|]; [|reflexivity].
  destruct (lex_finish st) as [l|]; [|reflexivity].
  simpl. reflexivity.
Qed.

Lemma lex_age_digits (ds : string) :
  digits ds = true ->
  lex_run LDefault (ds +:+ ");") = Some ([TNum ds None; TRParen; TSemi], LDefault).
Proof.
  unfold digits. destruct ds as [|c ds]; [discriminate|]. simpl.
  intros H. apply andb_prop in H as [Hc Hs].
  destruct (digit_classes c Hc) as (Hn & _ & Hsp & Hq).
  unfold step, step_default.
  rewrite Hn, Hsp, Hq, Hc.
  rewrite lex_run_app, (lex_run_num _ _ Hs). reflexivity.
Qed.

Lemma lex_age_negative (ds : string) :
  digits ds = true ->
  lex_run LDefault ("-" +:+ ds +:+ ");")
  = Some ([TMinus; TNum ds None; TRParen; TSemi], LDefault).
Proof.
  unfold digits. destruct ds as [|c ds]; [discriminate|]. simpl.
  intros H. apply andb_prop in H as [Hc Hs].
  destruct (digit_classes c Hc) as (Hn & _ & Hsp & Hq).
  assert (Hm : Nat.eqb (code c) 45 = false)
    by (clear -Hc; destruct c as [[] [] [] [] [] [] [] []]; vm_compute in *; congruence).
  unfold step, step_default, emit. rewrite Hn, Hm, Hsp, Hq, Hc.
  simpl. rewrite lex_run_app, (lex_run_num _ _ Hs). reflexivity.
Qed.

Lemma lex_age_letters (w : string) :
  letters w = true -> w <> "" ->
  lex_run LDefault (w +:+ ");")
  = Some ([TId (lower_string w); TRParen; TSemi], LDefault).
Proof.
  unfold letters. destruct w as [|c w]; [congruence|]. simpl.
  intros H _. apply andb_prop in H as [Hc Hs].
  destruct (letter_classes c Hc) as (Hn & Hi & _ & Hsp & Hq & Hd).
  unfold step, step_default.
  rewrite Hn, Hsp, Hq, Hd, Hi.
  rewrite lex_run_app, (lex_run_ident _ _ Hs). reflexivity.
Qed.

End Lexing.

Section Parsing.

Lemma parse_insert_digits (n e ds : string) :
  plain n = true -> plain e = true -> digits ds = true ->
  parse_text (insert_text n e ds)
  = Some [SInsert [(EStr n, EStr e, ENum false ds None)]].
Proof.
  intros Hn He Hd. unfold parse_text.
  rewrite (lex_insert_text _ _ _ Hn He), (lex_age_digits _ Hd).
  reflexivity.
Qed.

Lemma parse_insert_negative (n e ds : string) :
  plain n = true -> plain e = true -> digits ds = true ->
  parse_text (insert_text n e ("-" +:+ ds))
  = Some [SInsert [(EStr n, EStr e, ENum true ds None)]].
Proof.
  intros Hn He Hd. unfold parse_text.
  rewrite (lex_insert_text _ _ _ Hn He).
  change (("-" +:+ ds) +:+ ");") with ("-" +:+ ds +:+ ");").
  rewrite (lex_age_negative _ Hd).
  reflexivity.
Qed.

Lemma parse_insert_letters (n e w : string) :
  plain n = true -> plain e = true -> letters w = true -> w <> "" ->
  parse_text (insert_text n e w)
  = Some [SInsert [(EStr n, EStr e, EIdent (lower_string w))]].
Proof.
  intros Hn He Hw Hne. unfold parse_text.
  rewrite (lex_insert_text _ _ _ Hn He), (lex_age_letters _ Hw Hne).
  reflexivity.
Qed.

Lemma parse_insert_empty (n e : string) :
  plain n = true -> plain e = true ->
  parse_text (insert_text n e "") = None.
Proof.
  intros Hn He. unfold parse_text.
  rewrite (lex_insert_text _ _ _ Hn He).
  reflexivity.
Qed.

End Parsing.

Section Numbers.

Example digits_value_30 : digits_value "30" = 30.
Proof. reflexivity. Qed.

Example digits_value_leading_zeros : digits_value "007" = 7.
Proof. reflexivity. Qed.

Example number_value_rounds_half_up : number_value false "30" (Some "5") = 31.
Proof. reflexivity. Qed.

Example number_value_rounds_down : number_value true "30" (Some "49") = -30.
Proof. reflexivity. Qed.

Example js_number_to_string_negative : js_number_to_string (-12) = "-12".
Proof. reflexivity. Qed.

Lemma uint_digits (d : Decimal.uint) :
  all_chars is_digit (NilEmpty.string_of_uint d) = true.
Proof. induction d; simpl; auto. Qed.

Lemma uint_nonempty (d : Decimal.uint) :
  d <> Decimal.Nil -> String.eqb (NilEmpty.string_of_uint d) "" = false.
Proof. destruct d; simpl; congruence. Qed.

Lemma digits_value_uint (d : Decimal.uint) :
  digits_value (NilEmpty.string_of_uint d) = Z.of_uint d.
Proof. unfold digits_value. now rewrite NilEmpty.usu. Qed.

(** [String(z)] of an integral number is its decimal digits, after a minus
    sign when it is negative. *)
Lemma js_number_cases (a : Z) :
  (exists ds, digits ds = true /\ js_number_to_string a = ds
              /\ digits_value ds = a)
  \/ (exists ds, digits ds = true /\ js_number_to_string a = "-" +:+ ds
                 /\ digits_value ds = - a).
Proof.
  destruct a as [|p|p].
  - left. exists "0". repeat split.
  - left. exists (NilEmpty.string_of_uint (Pos.to_uint p)).
    pose proof (DecimalPos.Unsigned.to_uint_nonnil p) as Hnn.
    split; [|split].
    + unfold digits. rewrite (uint_nonempty _ Hnn), uint_digits. reflexivity.
    + unfold js_number_to_string. simpl.
      unfold NilZero.string_of_uint. destruct (Pos.to_uint p); congruence.
    + rewrite digits_value_uint. unfold Z.of_uint.
      now rewrite DecimalPos.Unsigned.of_to.
  - right. exists (NilEmpty.string_of_uint (Pos.to_uint p)).
    pose proof (DecimalPos.Unsigned.to_uint_nonnil p) as Hnn.
    split; [|split].
    + unfold digits. rewrite (uint_nonempty _ Hnn), uint_digits. reflexivity.
    + unfold js_number_to_string. simpl.
      unfold NilZero.string_of_uint.
      destruct (Pos.to_uint p); [congruence|reflexivity..].
    + rewrite digits_value_uint. unfold Z.of_uint.
      now rewrite DecimalPos.Unsigned.of_to.
Qed.

Lemma parse_insert_number (n e : string) (a : Z) :
  plain n = true -> plain e = true ->
  exists neg ds,
    parse_text (insert_text n e (js_number_to_string a))
    = Some [SInsert [(EStr n, EStr e, ENum neg ds None)]]
    /\ number_value neg ds None = a.
Proof.
  intros Hn He.
  destruct (js_number_cases a) as [(ds & Hd & -> & Hv)|(ds & Hd & -> & Hv)].
  - exists false, ds. split; [now apply parse_insert_digits|].
    unfold number_value. simpl. lia.
  - exists true, ds. split; [now apply parse_insert_negative|].
    unfold number_value. simpl. lia.
Qed.

End Numbers.

Section Execution.

Lemma rollback_same (st : Store) (t : Table) :
  users st = Some t -> rollback st (next_id t) = st.
Proof.
  destruct st as [r u], t as [rs nx]. simpl. intros ->. reflexivity.
Qed.

(** A text that is one insert of one row: the row is coerced, then
    inserted; the store changes only by the new row or by the sequence. *)
Lemma query_one_insert (text : string) (st : Store) (t : Table)
      (r : Expr * Expr * Expr) :
  reachable st = true -> users st = Some t ->
  parse_text text = Some [SInsert [r]] ->
  query text st =
  match coerce_row r with
  | inl err => (st, inl err)
  | inr v =>
      match insert_row t v with
      | inl (err, adv) => (rollback st adv, inl err)
      | inr t' => (mkStore true (Some t'), inr [[]])
      end
  end.
Proof.
  intros Hr Hu Hp. unfold query. rewrite Hr, Hp, Hu. simpl.
  destruct (coerce_row r) as [err|v]; simpl.
  - now rewrite (rollback_same _ _ Hu).
  - destruct (insert_row t v) as [[err adv]|t']; reflexivity.
Qed.

Lemma to_varchar_short (s : string) :
  (String.length s <= 255)%nat -> to_varchar (EStr s) = inr (Some s).
Proof.
  intros H. unfold to_varchar, varchar255.
  apply Nat.leb_le in H. now rewrite H.
Qed.

Lemma to_int_number (neg : bool) (ds : string) :
  in_int_range (number_value neg ds None) = true ->
  to_int (ENum neg ds None) = inr (Some (number_value neg ds None)).
Proof. intros H. unfold to_int. now rewrite H. Qed.

Lemma fresh_id (t : Table) :
  table_ok t -> bool_decide (next_id t ∈ u_id <$> rows t) = false.
Proof.
  intros Hok. apply bool_decide_eq_false. intros Hin.
  apply list_elem_of_fmap in Hin as (u & Heq & Hu).
  unfold table_ok in Hok. rewrite Forall_forall in Hok.
  specialize (Hok u Hu). lia.
Qed.

Lemma insert_row_fresh (t : Table) (n e : string) (a : Z) :
  table_ok t -> next_id t <= INT_MAX ->
  n ∉ u_name <$> rows t -> e ∉ u_email <$> rows t ->
  insert_row t (Some n, Some e, Some a)
  = inr {| rows := rows t ++ [mkUser (next_id t) n e a];
           next_id := next_id t + 1 |}.
Proof.
  intros Hok Hmax Hn He. unfold insert_row.
  replace (INT_MAX <? next_id t) with false by (symmetry; apply Z.ltb_ge; lia).
  rewrite (fresh_id _ Hok).
  rewrite (bool_decide_eq_false_2 _ Hn), (bool_decide_eq_false_2 _ He).
  reflexivity.
Qed.

(** A row that breaks NOT NULL or a unique constraint is rejected whatever
    the table holds. *)
Lemma insert_row_null_age (t : Table) (n e : option string) :
  exists err adv, insert_row t (n, e, None) = inl (err, adv).
Proof.
  unfold insert_row. destruct (INT_MAX <? next_id t); [eauto|].
  destruct n, e; eauto.
Qed.

Lemma insert_row_taken (t : Table) (n e : string) (a : Z) :
  n ∈ u_name <$> rows t \/ e ∈ u_email <$> rows t ->
  exists err adv, insert_row t (Some n, Some e, Some a) = inl (err, adv).
Proof.
  intros H. unfold insert_row. destruct (INT_MAX <? next_id t); [eauto|].
  destruct (bool_decide (next_id t ∈ u_id <$> rows t)); [eauto|].
  destruct (bool_decide (n ∈ u_name <$> rows t)) eqn:Hn; [eauto|].
  destruct (bool_decide (e ∈ u_email <$> rows t)) eqn:He; [eauto|].
  apply bool_decide_eq_false in Hn, He. tauto.
Qed.

Lemma rollback_rows (st : Store) (seq : Z) :
  all_rows (rollback st seq) = all_rows st.
Proof. unfold all_rows, rollback. simpl. now destruct (users st). Qed.

Lemma insert_row_grows (t t' : Table) (v : Values) :
  insert_row t v = inr t' ->
  next_id t' = next_id t + 1
  /\ exists u, rows t' = rows t ++ [u] /\ u_id u = next_id t.
Proof.
  unfold insert_row. destruct (INT_MAX <? next_id t); [discriminate|].
  destruct v as [[[n|] [e|]] [a|]]; try discriminate.
  destruct (bool_decide (next_id t ∈ u_id <$> rows t)); [discriminate|].
  destruct (bool_decide (n ∈ u_name <$> rows t)); [discriminate|].
  destruct (bool_decide (e ∈ u_email <$> rows t)); [discriminate|].
  intros [= <-]. simpl. eauto.
Qed.

Lemma insert_row_error_seq (t : Table) (v : Values) (err : SqlError) (adv : Z) :
  insert_row t v = inl (err, adv) -> next_id t <= adv.
Proof.
  unfold insert_row. destruct (INT_MAX <? next_id t).
  - intros [= _ <-]. lia.
  - destruct v as [[[n|] [e|]] [a|]]; try (intros [= _ <-]; lia).
    repeat (destruct (bool_decide _); [intros [= _ <-]; lia|]).
    discriminate.
Qed.

Lemma insert_row_ok (t t' : Table) (v : Values) :
  table_ok t -> insert_row t v = inr t' -> table_ok t'.
Proof.
  intros Hok H. destruct (insert_row_grows _ _ _ H) as (Hnx & u & Hrows & Hid).
  unfold table_ok in *. rewrite Hrows, Hnx. apply Forall_app. split.
  - eapply Forall_impl; [exact Hok|]. simpl. intros; lia.
  - constructor; [lia|constructor].
Qed.

Lemma insert_rows_ok (vs : list Values) (t t' : Table) :
  table_ok t -> insert_rows t vs = inr t' ->
  table_ok t' /\ next_id t <= next_id t'.
Proof.
  revert t. induction vs as [|v vs IH]; intros t Hok; simpl.
  - intros [= <-]. split; [assumption|lia].
  - destruct (insert_row t v) as [err|t1] eqn:H1; [discriminate|].
    intros H. destruct (IH t1 (insert_row_ok _ _ _ Hok H1) H) as [Hok' Hle].
    destruct (insert_row_grows _ _ _ H1) as (Hnx & _). split; [assumption|lia].
Qed.

Lemma insert_rows_error_seq (vs : list Values) (t : Table)
      (err : SqlError) (adv : Z) :
  insert_rows t vs = inl (err, adv) -> next_id t <= adv.
Proof.
  revert t. induction vs as [|v vs IH]; intros t; simpl; [discriminate|].
  destruct (insert_row t v) as [[e1 a1]|t1] eqn:H1.
  - intros [= _ <-]. eapply insert_row_error_seq; eauto.
  - intros H. apply IH in H.
    destruct (insert_row_grows _ _ _ H1) as (Hnx & _). lia.
Qed.

Lemma exec_stmt_ok (s : Stmt) (cur cur' : option Table) (res : list User) :
  cur_ok cur -> exec_stmt s cur = inr (cur', res) ->
  cur_ok cur'
  /\ forall t t', cur = Some t -> cur' = Some t' -> next_id t <= next_id t'.
Proof.
  intros Hok. destruct s, cur as [t|]; simpl; try discriminate.
  - intros [= <- _]. split; [assumption|]. intros ? ? [= <-] [= <-]. lia.
  - intros [= <- _]. split; [constructor|]. discriminate.
  - intros [= <- _]. split; [assumption|]. intros ? ? [= <-] [= <-]. lia.
  - destruct (coerce_rows vals) as [err|vs]; [discriminate|].
    destruct (insert_rows t vs) as [[err adv]|t1] eqn:H1; [discriminate|].
    intros [= <- _]. destruct (insert_rows_ok _ _ _ Hok H1) as [Hok1 Hle].
    split; [assumption|]. now intros ? ? [= <-] [= <-].
  - intros [= <- _]. split; [exact I|]. discriminate.
  - intros [= <- _]. split; [constructor|].
    intros ? ? [= <-] [= <-]. simpl. lia.
Qed.

Lemma exec_stmt_error_seq (s : Stmt) (t : Table) (err : SqlError) (adv : Z) :
  exec_stmt s (Some t) = inl (err, Some adv) -> next_id t <= adv.
Proof.
  destruct s; simpl; try discriminate.
  destruct (coerce_rows vals) as [e|vs]; [discriminate|].
  destruct (insert_rows t vs) as [[e a]|t1] eqn:H1; [|discriminate].
  intros [= _ <-]. eapply insert_rows_error_seq; eauto.
Qed.

(** A query that resolves leaves a table whose ids are below its sequence;
    a query that is rejected leaves the sequence where it was or further. *)
Lemma exec_all_ok (ss : list Stmt) (cur : option Table) (own : bool) (seq : Z) :
  cur_ok cur -> (own = true -> cur_seq cur seq) ->
  match exec_all ss cur own seq with
  | inl (_, seq') => seq <= seq'
  | inr (fin, _) => cur_ok fin
  end.
Proof.
  revert cur own seq. induction ss as [|s ss IH]; intros cur own seq Hok Hown.
  - simpl. assumption.
  - simpl. destruct (exec_stmt s cur) as [[err adv]|[cur' res]] eqn:Hs.
    + destruct own; [|lia]. destruct adv as [adv|]; [|lia].
      specialize (Hown eq_refl). destruct cur as [t|]; [|contradiction].
      simpl in Hown. subst seq. eapply exec_stmt_error_seq; eauto.
    + destruct (exec_stmt_ok _ _ _ _ Hok Hs) as [Hok' Hle].
      set (own' := own && is_some cur').
      set (seq' := if own' then match cur' with Some t => next_id t | None => seq end
                   else seq).
      assert (Hown' : own' = true -> cur_seq cur' seq').
      { unfold seq'. intros H. rewrite H. unfold own' in H.
        apply andb_prop in H as [_ H]. destruct cur'; [reflexivity|discriminate]. }
      assert (Hseq : seq <= seq').
      { unfold seq', own'. destruct own; simpl; [|lia].
        destruct cur' as [t'|]; simpl; [|lia].
        specialize (Hown eq_refl). destruct cur as [t|]; [|contradiction].
        simpl in Hown. subst seq. now apply Hle. }
      specialize (IH cur' own' seq' Hok' Hown').
      destruct (exec_all ss cur' own' seq') as [[err seq'']|[fin rs]];
        [lia|assumption].
Qed.

(** Every query, whatever its text, keeps the ids of the table below its
    sequence. *)
Lemma query_store_ok (text : string) (st : Store) :
  store_ok st -> store_ok (query text st).1.
Proof.
  intros Hok. unfold query. destruct (reachable st); simpl; [|assumption].
  destruct (parse_text text) as [ss|]; [|assumption].
  pose proof (exec_all_ok ss (users st) (is_some (users st))
                (match users st with Some t => next_id t | None => 0 end)) as H.
  unfold store_ok in Hok.
  destruct (exec_all ss (users st) _ _) as [[err seq']|[fin rs]]; simpl.
  - unfold store_ok, rollback. simpl. destruct (users st) as [t|]; [|exact I].
    specialize (H Hok (fun _ => eq_refl)). simpl in H.
    unfold table_ok in *. simpl. eapply Forall_impl; [exact Hok|].
    simpl. intros; lia.
  - unfold store_ok. simpl. apply H; [assumption|].
    destruct (users st); [reflexivity|discriminate].
Qed.

End Execution.

(** * The handlers *)

Section Handlers.

Lemma parse_select : parse_text "SELECT * FROM users" = Some [SSelect].
Proof. vm_compute. reflexivity. Qed.

Lemma get_api_all_rows (st : Store) (t : Table) :
  reachable st = true -> users st = Some t ->
  get_api_all st = (st, {| status := 200; body := BRows (rows t) |}).
Proof.
  intros Hr Hu. unfold get_api_all, query.
  rewrite Hr, parse_select, Hu. simpl.
  destruct st as [r u]. simpl in *. now subst.
Qed.

(** The insert of a plain name, a plain email and a signed integer literal
    in range, on a table that has neither the name nor the email. *)
Lemma insert_query_accepts (n e age : string) (neg : bool) (ds : string)
      (st : Store) (t : Table) :
  parse_text (insert_text n e age)
    = Some [SInsert [(EStr n, EStr e, ENum neg ds None)]] ->
  (String.length n <= 255)%nat -> (String.length e <= 255)%nat ->
  INT_MIN <= number_value neg ds None <= INT_MAX ->
  reachable st = true -> users st = Some t ->
  table_ok t -> next_id t <= INT_MAX ->
  n ∉ u_name <$> rows t -> e ∉ u_email <$> rows t ->
  query (insert_text n e age) st
  = (mkStore true
       (Some {| rows := rows t ++ [mkUser (next_id t) n e (number_value neg ds None)];
                next_id := next_id t + 1 |}),
     inr [[]]).
Proof.
  intros Hp Hln Hle Hrange Hr Hu Hok Hmax Hn He.
  rewrite (query_one_insert _ _ _ _ Hr Hu Hp).
  unfold coerce_row.
  rewrite (to_varchar_short _ Hln), (to_varchar_short _ Hle).
  rewrite to_int_number
    by (unfold in_int_range; apply andb_true_intro; split; apply Z.leb_le; lia).
  now rewrite (insert_row_fresh _ _ _ _ Hok Hmax Hn He).
Qed.

Lemma count_new_row (rs : list User) (i : Z) (n e : string) (a : Z) :
  n ∉ u_name <$> rs ->
  length (List.filter (has_fields n e a) (rs ++ [mkUser i n e a])) = 1%nat.
Proof.
  intros Hn. rewrite List.filter_app, length_app.
  assert (Hnone : List.filter (has_fields n e a) rs = []).
  { induction rs as [|u rs IH]; [reflexivity|]. simpl.
    rewrite fmap_cons in Hn. apply not_elem_of_cons in Hn as [Hne Hrest].
    unfold has_fields at 1.
    destruct (String.eqb_spec (u_name u) n) as [Heq|_]; [congruence|].
    simpl. now apply IH. }
  rewrite Hnone. simpl. unfold has_fields. simpl.
  now rewrite !String.eqb_refl, Z.eqb_refl.
Qed.

(** The handler on such a request: the row is appended and the request
    body is sent back. *)
Lemma create_accepted (req_body : gmap string JsVal) (st : Store) (t : Table)
      (neg : bool) (ds : string) :
  let n := js_to_string (req_body !! "name") in
  let e := js_to_string (req_body !! "email") in
  parse_text (insert_text n e (js_to_string (req_body !! "age")))
    = Some [SInsert [(EStr n, EStr e, ENum neg ds None)]] ->
  (String.length n <= 255)%nat -> (String.length e <= 255)%nat ->
  INT_MIN <= number_value neg ds None <= INT_MAX ->
  reachable st = true -> users st = Some t ->
  table_ok t -> next_id t <= INT_MAX ->
  n ∉ u_name <$> rows t -> e ∉ u_email <$> rows t ->
  post_api_form req_body st
  = (mkStore true
       (Some {| rows := rows t ++ [mkUser (next_id t) n e (number_value neg ds None)];
                next_id := next_id t + 1 |}),
     {| status := 200; body := BObject req_body |}).
Proof.
  intros n e Hp Hln Hle Hrange Hr Hu Hok Hmax Hn He.
  unfold post_api_form. fold n. fold e.
  now rewrite (insert_query_accepts _ _ _ _ _ _ _ Hp Hln Hle Hrange Hr Hu Hok Hmax Hn He).
Qed.

Lemma digits_value_nonneg (s : string) : 0 <= digits_value s.
Proof.
  unfold digits_value. destruct (NilEmpty.uint_of_string s); [|lia].
  unfold Z.of_uint. apply N2Z.is_nonneg.
Qed.

Lemma digits_plain (s : string) : all_chars is_digit s = true -> plain s = true.
Proof.
  unfold plain. induction s as [|c s IH]; [reflexivity|]. simpl.
  intros H. apply andb_prop in H as [Hc Hs].
  destruct (digit_classes c Hc) as (Hn & _ & _ & Hq).
  now rewrite Hn, Hq, (IH Hs).
Qed.

Lemma letters_plain (s : string) : letters s = true -> plain s = true.
Proof.
  unfold plain, letters. induction s as [|c s IH]; [reflexivity|]. simpl.
  intros H. apply andb_prop in H as [Hc Hs].
  destruct (letter_classes c Hc) as (Hn & _ & _ & _ & Hq & _).
  now rewrite Hn, Hq, (IH Hs).
Qed.

(** What [String] makes of a field other than a string has no quote. *)
Lemma js_to_string_plain (v : option JsVal) :
  plain_field v = true -> plain (js_to_string v) = true.
Proof.
  destruct v as [[s|z|[]|]|]; simpl; try reflexivity; [auto|].
  intros _.
  destruct (js_number_cases z) as [(ds & Hd & -> & _)|(ds & Hd & -> & _)];
    unfold digits in Hd; apply andb_prop in Hd as [_ Hd].
  - now apply digits_plain.
  - change (plain ("-" +:+ ds)) with (plain ds). now apply digits_plain.
Qed.

Lemma js_to_string_letters (v : option JsVal) :
  age_without_number v = true -> letters (js_to_string v) = true.
Proof. destruct v as [[s|z|[]|]|]; simpl; auto; discriminate. Qed.

Lemma to_int_ident (x : string) :
  to_int (EIdent x) = inr None \/ exists err, to_int (EIdent x) = inl err.
Proof.
  unfold to_int. destruct (is_null_word x); [now left|].
  right. destruct (is_bool_word x); eauto.
Qed.

(** An insert whose age is a bare word is rejected on every store. *)
Lemma query_insert_word_fails (text : string) (en ee : Expr) (x : string)
      (st : Store) :
  parse_text text = Some [SInsert [(en, ee, EIdent x)]] ->
  exists err, (query text st).2 = inl err
              /\ all_rows (query text st).1 = all_rows st.
Proof.
  intros Hp. destruct (reachable st) eqn:Hr.
  2: { unfold query. rewrite Hr. simpl. eauto. }
  destruct (users st) as [t|] eqn:Hu.
  2: { unfold query. rewrite Hr, Hp, Hu. simpl.
       eexists. split; [reflexivity|]. now rewrite rollback_rows. }
  rewrite (query_one_insert _ _ _ _ Hr Hu Hp). unfold coerce_row.
  destruct (to_varchar en) as [err|n]; [simpl; eauto|].
  destruct (to_varchar ee) as [err|e]; [simpl; eauto|].
  destruct (to_int_ident x) as [->|[err ->]]; [|simpl; eauto].
  destruct (insert_row_null_age t n e) as (err & adv & ->). simpl.
  eexists. split; [reflexivity|]. now rewrite rollback_rows.
Qed.

(** With plain name and email, an age text of letters only is rejected. *)
Lemma query_insert_letters_fails (n e w : string) (st : Store) :
  plain n = true -> plain e = true -> letters w = true ->
  exists err, (query (insert_text n e w) st).2 = inl err
              /\ all_rows (query (insert_text n e w) st).1 = all_rows st.
Proof.
  intros Hn He Hw. destruct (string_dec w "") as [->|Hne].
  - unfold query. destruct (reachable st); simpl; [|eauto].
    rewrite (parse_insert_empty _ _ Hn He). eauto.
  - eapply query_insert_word_fails.
    now apply parse_insert_letters.
Qed.

(** With plain name and email and a number for the age, a name or an email
    that the table holds already is rejected; the rows stay. *)
Lemma duplicate_create_rejected (req_body : gmap string JsVal) (st : Store)
      (t : Table) (n e : string) (a : Z) :
  req_body !! "name" = Some (JStr n) ->
  req_body !! "email" = Some (JStr e) ->
  req_body !! "age" = Some (JNum a) ->
  plain n = true -> plain e = true ->
  (String.length n <= 255)%nat -> (String.length e <= 255)%nat ->
  reachable st = true -> users st = Some t ->
  n ∈ u_name <$> rows t \/ e ∈ u_email <$> rows t ->
  status (post_api_form req_body st).2 = 500
  /\ all_rows (post_api_form req_body st).1 = all_rows st.
Proof.
  intros Hbn Hbe Hba Hpn Hpe Hln Hle Hr Hu Hdup.
  destruct (parse_insert_number n e a Hpn Hpe) as (neg & ds & Hp & Hv).
  unfold post_api_form. rewrite Hbn, Hbe, Hba. simpl js_to_string.
  rewrite (query_one_insert _ _ _ _ Hr Hu Hp). unfold coerce_row.
  rewrite (to_varchar_short _ Hln), (to_varchar_short _ Hle).
  unfold to_int. destruct (in_int_range (number_value neg ds None)).
  - destruct (insert_row_taken t n e (number_value neg ds None) Hdup)
      as (err & adv & ->).
    simpl. split; [reflexivity|apply rollback_rows].
  - simpl. split; reflexivity.
Qed.

(** With plain name and email and a number for the age, a create leaves the
    rows that were there in place and in order, and adds at most one. *)
Lemma plain_create_appends (req_body : gmap string JsVal) (st : Store) (a : Z) :
  plain_field (req_body !! "name") = true ->
  plain_field (req_body !! "email") = true ->
  req_body !! "age" = Some (JNum a) ->
  all_rows (post_api_form req_body st).1 = all_rows st
  \/ exists u, all_rows (post_api_form req_body st).1 = all_rows st ++ [u].
Proof.
  intros Hn He Ha.
  destruct (parse_insert_number _ _ a
              (js_to_string_plain _ Hn) (js_to_string_plain _ He))
    as (neg & ds & Hp & Hv).
  unfold post_api_form. rewrite Ha. simpl (js_to_string (Some (JNum a))).
  destruct (reachable st) eqn:Hr.
  2: { unfold query. rewrite Hr. simpl. now left. }
  destruct (users st) as [t|] eqn:Hu.
  2: { unfold query. rewrite Hr, Hp, Hu. simpl. left. apply rollback_rows. }
  rewrite (query_one_insert _ _ _ _ Hr Hu Hp).
  destruct (coerce_row _) as [err|v]; [now left|].
  destruct (insert_row t v) as [[err adv]|t'] eqn:Hi; simpl.
  - left. apply rollback_rows.
  - right. destruct (insert_row_grows _ _ _ Hi) as (_ & u & Hrows & _).
    exists u. unfold all_rows. simpl. now rewrite Hu.
Qed.

(** The usual case of a repeated name: the first create is accepted, the
    second, with the same name, is answered 500, and list-users shows the
    first record only. *)
Lemma second_create_rejected (first second : gmap string JsVal) (st : Store)
      (t : Table) (n e1 e2 : string) (a1 a2 : Z) :
  first !! "name" = Some (JStr n) -> second !! "name" = Some (JStr n) ->
  first !! "email" = Some (JStr e1) -> second !! "email" = Some (JStr e2) ->
  first !! "age" = Some (JNum a1) -> second !! "age" = Some (JNum a2) ->
  plain n = true -> plain e1 = true -> plain e2 = true ->
  (String.length n <= 255)%nat ->
  (String.length e1 <= 255)%nat -> (String.length e2 <= 255)%nat ->
  INT_MIN <= a1 <= INT_MAX ->
  reachable st = true -> users st = Some t ->
  table_ok t -> next_id t <= INT_MAX ->
  n ∉ u_name <$> rows t -> e1 ∉ u_email <$> rows t ->
  let st1 := (post_api_form first st).1 in
  status (post_api_form first st).2 = 200
  /\ status (post_api_form second st1).2 = 500
  /\ all_rows (post_api_form second st1).1
     = rows t ++ [mkUser (next_id t) n e1 a1].
Proof.
  intros Hn1 Hn2 He1 He2 Ha1 Ha2 Hpn Hpe1 Hpe2 Hln Hle1 Hle2 Hrange Hr Hu
         Hok Hmax Hfn Hfe.
  destruct (parse_insert_number n e1 a1 Hpn Hpe1) as (neg & ds & Hp & Hv).
  pose proof (create_accepted first st t neg ds) as H.
  rewrite Hn1, He1, Ha1 in H. simpl js_to_string in H. cbv zeta in H.
  rewrite Hv in H. specialize (H Hp Hln Hle1 Hrange Hr Hu Hok Hmax Hfn Hfe).
  cbv zeta. rewrite H. cbn [fst snd status]. split; [reflexivity|].
  set (t1 := {| rows := rows t ++ [mkUser (next_id t) n e1 a1];
                next_id := next_id t + 1 |}).
  apply (duplicate_create_rejected second (mkStore true (Some t1)) t1 n e2 a2
           Hn2 He2 Ha2 Hpn Hpe2 Hln Hle2 eq_refl eq_refl).
  left. unfold t1. cbn [rows]. rewrite fmap_app. apply elem_of_app. right.
  apply list_elem_of_singleton. reflexivity.
Qed.

(** The stores of the examples are states of the running service. *)
Example fresh_store_value :
  fresh_store = mkStore true (Some (mkTable [] 1)).
Proof. reflexivity. Qed.

Example alice_store_reached :
  (post_api_form (form (JStr "alice") (JStr "alice@example.com") (JNum 30))
     fresh_store).1 = alice_store.
Proof. vm_compute. reflexivity. Qed.

Lemma fresh_store_ok : store_ok fresh_store.
Proof. vm_compute. constructor. Qed.

Lemma createTable_ok (st : Store) : store_ok st -> store_ok (createTable st).
Proof. apply query_store_ok. Qed.

Lemma get_api_all_ok (st : Store) : store_ok st -> store_ok (get_api_all st).1.
Proof.
  intros H. unfold get_api_all.
  pose proof (query_store_ok "SELECT * FROM users" st H) as Hq.
  destruct (query _ st) as [st' [err|res]]; exact Hq.
Qed.

Lemma post_api_form_ok (req_body : gmap string JsVal) (st : Store) :
  store_ok st -> store_ok (post_api_form req_body st).1.
Proof.
  intros H. unfold post_api_form.
  pose proof (query_store_ok
                (insert_text (js_to_string (req_body !! "name"))
                   (js_to_string (req_body !! "email"))
                   (js_to_string (req_body !! "age"))) st H) as Hq.
  destruct (query _ st) as [st' [err|res]]; exact Hq.
Qed.

End Handlers.

(** * Age texts of letters, digits, blanks and commas *)

Section AgeTexts.

Lemma age_char_cases (c : ascii) :
  age_char c = true ->
  is_letter c = true \/ is_digit c = true \/ c = " "%char \/ c = ","%char.
Proof.
  destruct c as [[] [] [] [] [] [] [] []]; vm_compute; intros H;
    try discriminate H;
    first [ left; reflexivity
          | right; left; reflexivity
          | right; right; left; reflexivity
          | right; right; right; reflexivity ].
Qed.

Lemma digit_more (c : ascii) :
  is_digit c = true -> is_ident_char c = true /\ is_blank c = false.
Proof.
  destruct c as [[] [] [] [] [] [] [] []]; vm_compute; intros H;
    try discriminate H; split; reflexivity.
Qed.

Lemma letter_more (c : ascii) :
  is_letter c = true ->
  is_blank c = false /\ Nat.eqb (code c) 46 = false.
Proof.
  destruct c as [[] [] [] [] [] [] [] []]; vm_compute; intros H;
    try discriminate H; split; reflexivity.
Qed.

(** One step of the scanner on each kind of character of these texts. *)
Lemma step_blank (st : lex_state) :
  word_state st = true -> step st " " = Some (pending st, LDefault).
Proof. destruct st; try discriminate; reflexivity. Qed.

Lemma step_comma (st : lex_state) :
  word_state st = true -> step st "," = Some (pending st ++ [TComma], LDefault).
Proof. destruct st; try discriminate; reflexivity. Qed.

Lemma step_letter (st : lex_state) (c : ascii) :
  word_state st = true -> is_letter c = true ->
  step st c =
  match st with
  | LNum _ => None
  | LIdent buf => Some ([], LIdent (snoc buf (to_lower c)))
  | _ => Some ([], LIdent (String (to_lower c) ""))
  end.
Proof.
  intros Hst H. destruct (letter_classes c H) as (Hn & Hi & Hic & Hsp & Hq & Hd).
  destruct (letter_more c H) as (_ & Hdot).
  destruct st; try discriminate Hst; unfold step, step_default.
  - now rewrite Hn, Hsp, Hq, Hd, Hi.
  - now rewrite Hn, Hd, Hdot, Hi.
  - now rewrite Hn, Hic.
Qed.

Lemma step_digit (st : lex_state) (c : ascii) :
  word_state st = true -> is_digit c = true ->
  step st c =
  match st with
  | LNum ip => Some ([], LNum (snoc ip c))
  | LIdent buf => Some ([], LIdent (snoc buf (to_lower c)))
  | _ => Some ([], LNum (String c ""))
  end.
Proof.
  intros Hst H. destruct (digit_classes c H) as (Hn & _ & Hsp & Hq).
  destruct (digit_more c H) as (Hic & _).
  destruct st; try discriminate Hst; unfold step, step_default.
  - now rewrite Hn, Hsp, Hq, H.
  - now rewrite Hn, H.
  - now rewrite Hn, Hic.
Qed.

Lemma pending_simple (st : lex_state) :
  Forall (fun t => simple_token t = true) (pending st).
Proof. destruct st; simpl; repeat constructor. Qed.

(** What is left in the scanner when the text ends is closed by the [);]
    of the template. *)
Lemma lex_run_close (st : lex_state) :
  word_state st = true ->
  lex_run st ");" = Some (pending st ++ [TRParen; TSemi], LDefault).
Proof. destruct st; try discriminate; reflexivity. Qed.

(** The scanner stays in its three word states and emits only words,
    numbers and commas. *)
Lemma lex_run_words (s : string) (st0 st : lex_state) (out : list token) :
  all_chars age_char s = true -> word_state st0 = true ->
  lex_run st0 s = Some (out, st) ->
  word_state st = true /\ Forall (fun t => simple_token t = true) out.
Proof.
  revert st0 st out. induction s as [|c s IH]; intros st0 st out Hs Hst0; simpl.
  - intros [= <- <-]. split; [assumption|constructor].
  - simpl in Hs. apply andb_prop in Hs as [Hc Hs].
    destruct (step st0 c) as [[o1 st1]|] eqn:Hstep; [|discriminate].
    destruct (lex_run st1 s) as [[o2 st2]|] eqn:Hr; [|discriminate].
    intros [= <- <-].
    assert (H1 : word_state st1 = true /\ Forall (fun t => simple_token t = true) o1).
    { destruct (age_char_cases c Hc) as [H|[H|[->| ->]]].
      - rewrite (step_letter _ _ Hst0 H) in Hstep.
        destruct st0; try discriminate; inversion Hstep; subst;
          split; (reflexivity || constructor).
      - rewrite (step_digit _ _ Hst0 H) in Hstep.
        destruct st0; try discriminate; inversion Hstep; subst;
          split; (reflexivity || constructor).
      - rewrite (step_blank _ Hst0) in Hstep. inversion Hstep; subst.
        split; [reflexivity|apply pending_simple].
      - rewrite (step_comma _ Hst0) in Hstep. inversion Hstep; subst.
        split; [reflexivity|]. apply Forall_app. split; [apply pending_simple|].
        repeat constructor. }
    destruct H1 as [Hst1 Ho1]. destruct (IH _ _ _ Hs Hst1 Hr) as [Hst2 Ho2].
    split; [assumption|]. apply Forall_app. now split.
Qed.

(** From inside a word the tokens start with that word; from inside a
    number there is at least one token. *)
Lemma lex_run_from_ident (s buf : string) (out : list token) (st : lex_state) :
  all_chars age_char s = true ->
  lex_run (LIdent buf) s = Some (out, st) ->
  exists x rest, out ++ pending st = TId x :: rest.
Proof.
  revert buf out st. induction s as [|c s IH]; intros buf out st Hs; simpl.
  - intros [= <- <-]. simpl. eauto.
  - simpl in Hs. apply andb_prop in Hs as [Hc Hs].
    destruct (age_char_cases c Hc) as [H|[H|[->| ->]]].
    + rewrite (step_letter (LIdent buf) _ eq_refl H).
      destruct (lex_run _ s) as [[o st']|] eqn:Hr; [|discriminate].
      intros [= <- <-]. exact (IH _ _ _ Hs Hr).
    + rewrite (step_digit (LIdent buf) _ eq_refl H).
      destruct (lex_run _ s) as [[o st']|] eqn:Hr; [|discriminate].
      intros [= <- <-]. exact (IH _ _ _ Hs Hr).
    + rewrite (step_blank (LIdent buf) eq_refl).
      destruct (lex_run _ s) as [[o st']|]; [|discriminate].
      intros [= <- <-]. simpl. eauto.
    + rewrite (step_comma (LIdent buf) eq_refl).
      destruct (lex_run _ s) as [[o st']|]; [|discriminate].
      intros [= <- <-]. simpl. eauto.
Qed.

Lemma lex_run_from_num (s ip : string) (out : list token) (st : lex_state) :
  all_chars age_char s = true ->
  lex_run (LNum ip) s = Some (out, st) ->
  out ++ pending st <> [].
Proof.
  revert ip out st. induction s as [|c s IH]; intros ip out st Hs; simpl.
  - intros [= <- <-]. discriminate.
  - simpl in Hs. apply andb_prop in Hs as [Hc Hs].
    destruct (age_char_cases c Hc) as [H|[H|[->| ->]]].
    + rewrite (step_letter (LNum ip) _ eq_refl H). discriminate.
    + rewrite (step_digit (LNum ip) _ eq_refl H).
      destruct (lex_run _ s) as [[o st']|] eqn:Hr; [|discriminate].
      intros [= <- <-]. exact (IH _ _ _ Hs Hr).
    + rewrite (step_blank (LNum ip) eq_refl).
      destruct (lex_run _ s) as [[o st']|]; [|discriminate].
      intros [= <- <-]. discriminate.
    + rewrite (step_comma (LNum ip) eq_refl).
      destruct (lex_run _ s) as [[o st']|]; [|discriminate].
      intros [= <- <-]. discriminate.
Qed.

(** No token at all: the text is blank. *)
Lemma lex_run_no_token (s : string) (out : list token) (st : lex_state) :
  all_chars age_char s = true ->
  lex_run LDefault s = Some (out, st) ->
  out ++ pending st = [] -> all_chars is_blank s = true.
Proof.
  revert out st. induction s as [|c s IH]; intros out st Hs; simpl.
  - reflexivity.
  - simpl in Hs. apply andb_prop in Hs as [Hc Hs].
    destruct (age_char_cases c Hc) as [H|[H|[->| ->]]].
    + rewrite (step_letter LDefault _ eq_refl H).
      destruct (lex_run (LIdent _) s) as [[o st']|] eqn:Hr; [|discriminate].
      intros [= <- <-] Hnil.
      destruct (lex_run_from_ident _ _ _ _ Hs Hr) as (x & rest & Hx).
      simpl in Hnil. congruence.
    + rewrite (step_digit LDefault _ eq_refl H).
      destruct (lex_run (LNum _) s) as [[o st']|] eqn:Hr; [|discriminate].
      intros [= <- <-] Hnil.
      now apply (lex_run_from_num _ _ _ _ Hs Hr) in Hnil.
    + rewrite (step_blank LDefault eq_refl).
      destruct (lex_run _ s) as [[o st']|] eqn:Hr; [|discriminate].
      intros [= <- <-] Hnil. simpl in Hnil. simpl.
      exact (IH _ _ Hs eq_refl Hnil).
    + rewrite (step_comma LDefault eq_refl).
      destruct (lex_run _ s) as [[o st']|]; [|discriminate].
      intros [= <- <-]. discriminate.
Qed.

(** One number and nothing else, from inside the number: digits, then
    blanks. *)
Lemma lex_run_one_number_tail (s ip0 ip : string) (out : list token)
      (st : lex_state) :
  all_chars age_char s = true ->
  lex_run (LNum ip0) s = Some (out, st) ->
  out ++ pending st = [TNum ip None] -> digits_then_blanks s = true.
Proof.
  revert ip0 out st. induction s as [|c s IH]; intros ip0 out st Hs; simpl.
  - reflexivity.
  - simpl in Hs. apply andb_prop in Hs as [Hc Hs].
    destruct (age_char_cases c Hc) as [H|[H|[->| ->]]].
    + rewrite (step_letter (LNum ip0) _ eq_refl H). discriminate.
    + rewrite (step_digit (LNum ip0) _ eq_refl H), H.
      destruct (lex_run (LNum _) s) as [[o st']|] eqn:Hr; [|discriminate].
      intros [= <- <-] Hone. exact (IH _ _ _ Hs Hr Hone).
    + rewrite (step_blank (LNum ip0) eq_refl).
      destruct (lex_run LDefault s) as [[o st']|] eqn:Hr; [|discriminate].
      intros [= <- <-] Hone. simpl in Hone.
      change (is_digit " ") with false. cbv iota.
      change (all_chars is_blank (String " " s)) with (all_chars is_blank s).
      apply (lex_run_no_token _ _ _ Hs Hr). congruence.
    + rewrite (step_comma (LNum ip0) eq_refl).
      destruct (lex_run _ s) as [[o st']|]; [|discriminate].
      intros [= <- <-]. discriminate.
Qed.

(** One number and nothing else: the text is a string of digits with
    blanks around it. *)
Lemma lex_run_one_number (s ip : string) (out : list token) (st : lex_state) :
  all_chars age_char s = true ->
  lex_run LDefault s = Some (out, st) ->
  out ++ pending st = [TNum ip None] -> padded_digits s = true.
Proof.
  revert out st. induction s as [|c s IH]; intros out st Hs; simpl.
  - intros [= <- <-]. discriminate.
  - simpl in Hs. apply andb_prop in Hs as [Hc Hs].
    destruct (age_char_cases c Hc) as [H|[H|[->| ->]]].
    + rewrite (step_letter LDefault _ eq_refl H).
      destruct (lex_run (LIdent _) s) as [[o st']|] eqn:Hr; [|discriminate].
      intros [= <- <-] Hone.
      destruct (lex_run_from_ident _ _ _ _ Hs Hr) as (x & rest & Hx).
      simpl in Hone. congruence.
    + rewrite (step_digit LDefault _ eq_refl H).
      destruct (digit_more c H) as (_ & Hb). rewrite Hb, H.
      destruct (lex_run (LNum _) s) as [[o st']|] eqn:Hr; [|discriminate].
      intros [= <- <-] Hone. simpl.
      exact (lex_run_one_number_tail _ _ _ _ _ Hs Hr Hone).
    + rewrite (step_blank LDefault eq_refl).
      destruct (lex_run _ s) as [[o st']|] eqn:Hr; [|discriminate].
      intros [= <- <-] Hone. simpl in Hone.
      change (is_blank " ") with true. cbv iota.
      exact (IH _ _ Hs eq_refl Hone).
    + rewrite (step_comma LDefault eq_refl).
      destruct (lex_run _ s) as [[o st']|]; [|discriminate].
      intros [= <- <-]. discriminate.
Qed.

(** A statement without semicolon ends at the first semicolon. *)
Lemma split_stmts_simple (l cur rest : list token) :
  Forall (fun t => simple_token t = true) l ->
  split_stmts cur (l ++ TRParen :: TSemi :: rest)
  = (rev cur ++ l ++ [TRParen]) :: split_stmts [] rest.
Proof.
  revert cur. induction l as [|t l IH]; intros cur Hl.
  - reflexivity.
  - apply Forall_cons in Hl as [Ht Hl].
    change ((t :: l) ++ TRParen :: TSemi :: rest)
      with (t :: (l ++ TRParen :: TSemi :: rest)).
    assert (Hs : split_stmts cur (t :: (l ++ TRParen :: TSemi :: rest))
                 = split_stmts (t :: cur) (l ++ TRParen :: TSemi :: rest))
      by (destruct t; try discriminate Ht; reflexivity).
    rewrite Hs, (IH _ Hl). simpl. now rewrite <- app_assoc.
Qed.

(** The rows read from the tokens of the template when the tokens of the
    age are words, numbers and commas: one word or one number gives the
    row, anything else is no row. *)
Lemma parse_rows_simple (n e : string) (toks : list token) :
  Forall (fun t => simple_token t = true) toks ->
  parse_rows (signed (TLParen :: TStr n :: TComma :: TStr e :: TComma
                        :: toks ++ [TRParen]))
  = match toks with
    | [TId x] => Some [(EStr n, EStr e, EIdent x)]
    | [TNum ip None] => Some [(EStr n, EStr e, ENum false ip None)]
    | _ => None
    end.
Proof.
  intros Hs. destruct toks as [|t1 [|t2 toks]].
  - reflexivity.
  - apply Forall_cons in Hs as [H1 _].
    destruct t1; try discriminate H1; try reflexivity.
    all: try (destruct fr; [discriminate H1|reflexivity]).
  - apply Forall_cons in Hs as [H1 Hs]. apply Forall_cons in Hs as [H2 _].
    destruct t1; try discriminate H1;
      try (destruct fr; [discriminate H1|]);
      destruct t2; try discriminate H2;
      try (destruct fr; [discriminate H2|]); reflexivity.
Qed.

Lemma parse_insert_simple (n e a : string) (out : list token) (st : lex_state) :
  plain n = true -> plain e = true -> all_chars age_char a = true ->
  lex_run LDefault a = Some (out, st) ->
  parse_text (insert_text n e a)
  = match out ++ pending st with
    | [TId x] => Some [SInsert [(EStr n, EStr e, EIdent x)]]
    | [TNum ip None] => Some [SInsert [(EStr n, EStr e, ENum false ip None)]]
    | _ => None
    end.
Proof.
  intros Hn He Ha Hr. unfold parse_text.
  rewrite (lex_insert_text _ _ _ Hn He), lex_run_app, Hr.
  destruct (lex_run_words a LDefault st out Ha eq_refl Hr) as [Hst Hout].
  rewrite (lex_run_close _ Hst). cbn [lex_finish].
  assert (Hs : Forall (fun t => simple_token t = true) (out ++ pending st))
    by (apply Forall_app; split; [assumption|apply pending_simple]).
  rewrite app_nil_r, (app_assoc out).
  generalize dependent (out ++ pending st). intros toks Hs.
  unfold parse.
  change (insert_head ++ TStr n :: TComma :: TStr e :: TComma
            :: toks ++ [TRParen; TSemi])
    with ([TId "insert"; TId "into"; TId "users"; TLParen; TId "name"; TComma;
           TId "email"; TComma; TId "age"; TRParen; TId "values"; TLParen;
           TStr n; TComma; TStr e; TComma] ++ toks ++ [TRParen; TSemi]).
  cbn [split_stmts app].
  rewrite (split_stmts_simple _ _ [] Hs).
  cbn [rev app split_stmts parse_all parse_stmt].
  rewrite (parse_rows_simple n e toks Hs).
  destruct toks as [|t1 [|t2 toks]]; [reflexivity| |].
  - destruct t1; try reflexivity. destruct fr; reflexivity.
  - destruct t1; try reflexivity. destruct fr; reflexivity.
Qed.

(** An insert built by the template from such an age text is rejected. *)
Lemma query_age_text_fails (n e a : string) (st : Store) :
  reachable st = true ->
  plain n = true -> plain e = true -> age_text_rejected a = true ->
  exists err, (query (insert_text n e a) st).2 = inl err
              /\ all_rows (query (insert_text n e a) st).1 = all_rows st.
Proof.
  intros Hreach Hn He Ha. unfold age_text_rejected in Ha.
  apply andb_prop in Ha as [Ha _]. apply andb_prop in Ha as [Ha _].
  apply andb_prop in Ha as [Ha Hpad]. apply negb_true_iff in Hpad.
  destruct (lex_run LDefault a) as [[out st']|] eqn:Hr.
  - pose proof (parse_insert_simple _ _ _ _ _ Hn He Ha Hr) as Hp.
    pose proof (lex_run_one_number a) as Hone.
    destruct (out ++ pending st') as [|t1 [|t2 toks]] eqn:Htoks.
    + unfold query. rewrite Hreach, Hp. simpl. eauto.
    + destruct t1;
        try (unfold query; rewrite Hreach, Hp; simpl; eauto; fail).
      * exact (query_insert_word_fails _ _ _ _ st Hp).
      * destruct fr;
          [unfold query; rewrite Hreach, Hp; simpl; eauto|].
        rewrite (Hone _ _ _ Ha Hr Htoks) in Hpad. discriminate.
    + unfold query. rewrite Hreach.
      destruct t1; try (rewrite Hp; simpl; eauto; fail).
      destruct fr; rewrite Hp; simpl; eauto.
  - unfold query, parse_text. rewrite Hreach.
    rewrite (lex_insert_text _ _ _ Hn He), lex_run_app, Hr. simpl. eauto.
Qed.

(** Texts of the class, and texts outside it. *)
Example age_text_rejected_yes :
  forallb age_text_rejected
    ["abc1"; "12abc"; "3 0"; "thirty one"; "30,5"; ""; "  ";
     "undefined"; "null"; "true"; "false"; "abc"]
  = true.
Proof. vm_compute. reflexivity. Qed.

Example age_text_rejected_no :
  forallb (fun s => negb (age_text_rejected s))
    ["30"; " 30 "; "007"; "1e3"; "0x1F"; "case when true then 1 end";
     "30.5"; "1+1"; "-5"]
  = true.
Proof. vm_compute. reflexivity. Qed.

End AgeTexts.

(** * The process *)

Section Service.

Lemma query_reachable (text : string) (st : Store) :
  reachable (query text st).1 = reachable st.
Proof.
  unfold query. destruct (reachable st) eqn:Hr; simpl; [|exact Hr].
  destruct (parse_text text) as [ss|]; [|exact Hr].
  destruct (exec_all _ _ _ _) as [[err seq]|[fin rs]]; simpl;
    first [exact Hr|reflexivity].
Qed.

(** In front of a reachable store the service starts and its client is
    connected. *)
Lemma start_running (db : Store) :
  reachable db = true ->
  exists client, start db = Running client /\ reachable client = true.
Proof.
  intros Hr. unfold start. rewrite Hr. eexists. split; [reflexivity|].
  unfold createTable. now rewrite query_reachable.
Qed.

End Service.

(** * Properties of the service *)


(** C8, counterexample: in front of a store that cannot be reached the
    process has exited and the health check gets no answer, while in front
    of a reachable store it answers 200 with the text "Hello World!": the
    output is not the same on these two store states. *)
Lemma health_check_store_down :
  request GET_api (start (mkStore false None)) = (Exited, None)
  /\ (request GET_api (start (mkStore true None))).2
     = Some {| status := 200; body := BText "Hello World!" |}.
Proof. split; vm_compute; reflexivity. Qed.

(** C8, as amended: a service started in front of a reachable store answers
    the health check with 200 and the text "Hello World!"; the answer is the
    same on any two reachable stores, whatever their tables hold; and on
    every running process the health check leaves the store as it was. *)
Theorem health_check_running (db1 db2 : Store) :
  reachable db1 = true -> reachable db2 = true ->
  (request GET_api (start db1)).2
  = Some {| status := 200; body := BText "Hello World!" |}
  /\ (request GET_api (start db1)).2 = (request GET_api (start db2)).2
  /\ (forall client : Store,
         reachable client = true ->
         request GET_api (Running client)
         = (Running client,
            Some {| status := 200; body := BText "Hello World!" |})).
Proof.
  intros H1 H2.
  assert (Hrun : forall client : Store,
             reachable client = true ->
             request GET_api (Running client)
             = (Running client,
                Some {| status := 200; body := BText "Hello World!" |})).
  { intros client Hc. unfold request. now rewrite Hc. }
  destruct (start_running db1 H1) as (c1 & -> & Hc1).
  destruct (start_running db2 H2) as (c2 & -> & Hc2).
  rewrite (Hrun c1 Hc1), (Hrun c2 Hc2). repeat split. exact Hrun.
Qed.

Lemma health_check_running_witness :
  (request GET_api (start alice_store)).2
  = Some {| status := 200; body := BText "Hello World!" |}
  /\ (request GET_api (start alice_store)).2
     = (request GET_api (start (mkStore true None))).2.
Proof.
  destruct (health_check_running alice_store (mkStore true None)
              eq_refl eq_refl) as (Ha & Hb & _).
  split; [exact Ha|exact Hb].
Defined.

(** C7: on a reachable store whose users table is empty, list-users answers
    200 with the empty sequence and leaves the store as it was. *)
Theorem list_users_empty (st : Store) (nx : Z) :
  reachable st = true ->
  users st = Some {| rows := []; next_id := nx |} ->
  get_api_all st = (st, {| status := 200; body := BRows [] |}).
Proof.
  intros Hr Hu. now rewrite (get_api_all_rows _ _ Hr Hu).
Qed.

Lemma list_users_empty_witness :
  get_api_all fresh_store
  = (fresh_store, {| status := 200; body := BRows [] |}).
Proof.
  apply (list_users_empty fresh_store 1); reflexivity.
Defined.

(** C6: when the insert of a create-user request is accepted by the store,
    the answer has status 200 and its body is the request body itself, so it
    echoes the submitted name, email and age.  Nothing of the store enters
    the body: its id field is the one of the request, if any, and the answer
    is the same on every store that accepts the request. *)
Theorem create_success_echoes (req_body : gmap string JsVal) (st : Store)
        (response : QueryResult) :
  (query (insert_text (js_to_string (req_body !! "name"))
            (js_to_string (req_body !! "email"))
            (js_to_string (req_body !! "age"))) st).2 = inr response ->
  (post_api_form req_body st).2
  = {| status := 200; body := BObject req_body |}
  /\ (exists o, body (post_api_form req_body st).2 = BObject o
                /\ o !! "name" = req_body !! "name"
                /\ o !! "email" = req_body !! "email"
                /\ o !! "age" = req_body !! "age"
                /\ o !! "id" = req_body !! "id")
  /\ (forall st', status (post_api_form req_body st').2 = 200 ->
                  (post_api_form req_body st').2 = (post_api_form req_body st).2).
Proof.
  unfold post_api_form.
  destruct (query _ st) as [st1 [err|res]]; simpl; [discriminate|].
  intros _. split; [reflexivity|]. split; [now exists req_body|].
  intros st'. destruct (query _ st') as [st2 [err'|res']]; simpl;
    [discriminate|reflexivity].
Qed.

Lemma create_success_echoes_witness :
  (post_api_form (form (JStr "alice") (JStr "alice@example.com") (JNum 30))
     fresh_store).2
  = {| status := 200;
       body := BObject (form (JStr "alice") (JStr "alice@example.com") (JNum 30)) |}.
Proof.
  refine (proj1 (create_success_echoes
                   (form (JStr "alice") (JStr "alice@example.com") (JNum 30))
                   fresh_store [[]] _)).
  vm_compute. reflexivity.
Defined.

(** C2, counterexample: bob's name and email are new and his age is an
    integer, but 2147483648 does not fit the INT column; the create answers
    500 and the list that follows has no record of bob. *)
Lemma create_then_list_int_overflow :
  let req := form (JStr "bob") (JStr "bob@example.com") (JNum 2147483648) in
  ("bob" ∉ u_name <$> all_rows alice_store)
  /\ ("bob@example.com" ∉ u_email <$> all_rows alice_store)
  /\ status (post_api_form req alice_store).2 = 500
  /\ get_api_all (post_api_form req alice_store).1
     = (alice_store, {| status := 200; body := BRows [alice] |})
  /\ length (List.filter (has_fields "bob" "bob@example.com" 2147483648) [alice])
     = 0%nat.
Proof.
  cbv zeta. repeat split; try absent; vm_compute; reflexivity.
Qed.

(** C2, as amended: on a reachable store whose users table exists, with
    every id below the sequence and the sequence not exhausted, a request
    whose name and email are strings of at most 255 characters without
    single quote or NUL, neither present in the table, and whose age is an
    integer of the INT range, is answered 200; the list-users that follows
    answers 200 with the old rows followed by one new row of the submitted
    name, email and age, and that row is the only one matching them. *)
Theorem create_then_list_once (req_body : gmap string JsVal) (st : Store)
        (t : Table) (n e : string) (a : Z) :
  req_body !! "name" = Some (JStr n) ->
  req_body !! "email" = Some (JStr e) ->
  req_body !! "age" = Some (JNum a) ->
  plain n = true -> plain e = true ->
  (String.length n <= 255)%nat -> (String.length e <= 255)%nat ->
  INT_MIN <= a <= INT_MAX ->
  reachable st = true -> users st = Some t ->
  table_ok t -> next_id t <= INT_MAX ->
  n ∉ u_name <$> rows t -> e ∉ u_email <$> rows t ->
  let created := post_api_form req_body st in
  let listed := get_api_all created.1 in
  status created.2 = 200
  /\ listed.2 = {| status := 200;
                   body := BRows (rows t ++ [mkUser (next_id t) n e a]) |}
  /\ length (List.filter (has_fields n e a)
               (rows t ++ [mkUser (next_id t) n e a])) = 1%nat.
Proof.
  intros Hbn Hbe Hba Hpn Hpe Hln Hle Hrange Hr Hu Hok Hmax Hn He.
  destruct (parse_insert_number n e a Hpn Hpe) as (neg & ds & Hp & Hv).
  cbv zeta. unfold post_api_form. rewrite Hbn, Hbe, Hba. simpl js_to_string.
  pose proof (insert_query_accepts _ _ _ _ _ st t Hp Hln Hle) as Hq.
  rewrite Hv in Hq. rewrite (Hq Hrange Hr Hu Hok Hmax Hn He).
  cbn [fst snd status].
  split; [reflexivity|]. split.
  - now rewrite (get_api_all_rows (mkStore true _) _ eq_refl eq_refl).
  - now apply count_new_row.
Qed.

Lemma create_then_list_once_witness :
  let req := form (JStr "bob") (JStr "bob@example.com") (JNum 41) in
  status (post_api_form req alice_store).2 = 200
  /\ (get_api_all (post_api_form req alice_store).1).2
     = {| status := 200;
          body := BRows [alice; mkUser 2 "bob" "bob@example.com" 41] |}
  /\ length (List.filter (has_fields "bob" "bob@example.com" 41)
               [alice; mkUser 2 "bob" "bob@example.com" 41]) = 1%nat.
Proof.
  apply (create_then_list_once
           (form (JStr "bob") (JStr "bob@example.com") (JNum 41))
           alice_store (mkTable [alice] 2) "bob" "bob@example.com" 41);
    try reflexivity; try (vm_compute; intuition discriminate);
    try (simpl; lia); try absent.
  repeat constructor.
Defined.

(** C10, counterexample: the age "2147483648" consists of decimal digits,
    the name and the email are new, and the create answers 500 without
    storing a row. *)
Lemma digit_string_age_overflow :
  let req := form (JStr "bob") (JStr "bob@example.com") (JStr "2147483648") in
  digits "2147483648" = true
  /\ post_api_form req alice_store
     = (alice_store,
        {| status := 500; body := BError numeric_value_out_of_range |}).
Proof. vm_compute. split; reflexivity. Qed.

(** C10, as amended: when the age field is a non-empty string of decimal
    digits whose number is at most 2147483647, and the name and email are
    strings of at most 255 characters without single quote or NUL that the
    table does not hold yet (store reachable, table present, ids below the
    sequence, sequence not exhausted), the create answers 200 and the new
    row carries that number as its age: the age need not be a number in the
    request. *)
Theorem digit_string_age_accepted (req_body : gmap string JsVal) (st : Store)
        (t : Table) (n e ds : string) :
  req_body !! "name" = Some (JStr n) ->
  req_body !! "email" = Some (JStr e) ->
  req_body !! "age" = Some (JStr ds) ->
  digits ds = true -> digits_value ds <= INT_MAX ->
  plain n = true -> plain e = true ->
  (String.length n <= 255)%nat -> (String.length e <= 255)%nat ->
  reachable st = true -> users st = Some t ->
  table_ok t -> next_id t <= INT_MAX ->
  n ∉ u_name <$> rows t -> e ∉ u_email <$> rows t ->
  post_api_form req_body st
  = (mkStore true
       (Some {| rows := rows t ++ [mkUser (next_id t) n e (digits_value ds)];
                next_id := next_id t + 1 |}),
     {| status := 200; body := BObject req_body |}).
Proof.
  intros Hbn Hbe Hba Hd Hmaxv Hpn Hpe Hln Hle Hr Hu Hok Hmax Hn He.
  pose proof (create_accepted req_body st t false ds) as H.
  rewrite Hbn, Hbe, Hba in H. simpl js_to_string in H. cbv zeta in H.
  replace (number_value false ds None) with (digits_value ds) in H
    by (unfold number_value; simpl; lia).
  apply H; auto.
  - now apply parse_insert_digits.
  - pose proof (digits_value_nonneg ds). unfold INT_MIN. lia.
Qed.

Lemma digit_string_age_accepted_witness :
  post_api_form (form (JStr "bob") (JStr "bob@example.com") (JStr "30"))
    alice_store
  = (mkStore true
       (Some {| rows := [alice; mkUser 2 "bob" "bob@example.com" 30];
                next_id := 3 |}),
     {| status := 200;
        body := BObject (form (JStr "bob") (JStr "bob@example.com") (JStr "30")) |}).
Proof.
  apply (digit_string_age_accepted
           (form (JStr "bob") (JStr "bob@example.com") (JStr "30"))
           alice_store (mkTable [alice] 2) "bob" "bob@example.com" "30");
    try reflexivity; try (vm_compute; intuition discriminate);
    try (simpl; lia); try absent.
  repeat constructor.
Defined.

(** C4, counterexample: the age "30.5" is not an integer, and the create
    answers 200; the store rounds the literal and keeps 31. *)
Lemma fractional_age_accepted :
  let req := form (JStr "bob") (JStr "bob@example.com") (JStr "30.5") in
  post_api_form req alice_store
  = (mkStore true
       (Some {| rows := [alice; mkUser 2 "bob" "bob@example.com" 31];
                next_id := 3 |}),
     {| status := 200; body := BObject req |}).
Proof. vm_compute. reflexivity. Qed.

(** C4, as amended: on a reachable store, when the age field is missing,
    null, a boolean, or a string of letters, digits, blanks and commas that
    is not a string of digits with blanks around it (and that neither holds
    a digit directly followed by e, x, o or b nor starts with the word
    case), and the name and email fields hold no single quote or NUL, the
    create answers 500 and the rows of the table stay as they were. *)
Theorem non_numeric_age_rejected (req_body : gmap string JsVal) (st : Store) :
  reachable st = true ->
  age_text_rejected (js_to_string (req_body !! "age")) = true ->
  plain_field (req_body !! "name") = true ->
  plain_field (req_body !! "email") = true ->
  status (post_api_form req_body st).2 = 500
  /\ all_rows (post_api_form req_body st).1 = all_rows st.
Proof.
  intros Hr Ha Hn He. unfold post_api_form.
  destruct (query_age_text_fails
              (js_to_string (req_body !! "name"))
              (js_to_string (req_body !! "email"))
              (js_to_string (req_body !! "age")) st Hr
              (js_to_string_plain _ Hn) (js_to_string_plain _ He) Ha)
    as (err & Hq & Hrows).
  destruct (query _ st) as [st' [err'|res]]; simpl in *; [auto|discriminate].
Qed.

Lemma non_numeric_age_rejected_witness :
  status (post_api_form (form (JStr "bob") (JStr "bob@example.com") (JStr "30,5"))
            alice_store).2 = 500
  /\ all_rows (post_api_form
                 (form (JStr "bob") (JStr "bob@example.com") (JStr "30,5"))
                 alice_store).1 = all_rows alice_store.
Proof.
  apply (non_numeric_age_rejected
           (form (JStr "bob") (JStr "bob@example.com") (JStr "30,5"))
           alice_store); reflexivity.
Defined.

(** C5, counterexample: the request has no name field, and the create
    answers 200: the text undefined went into the statement inside the
    quotes and is stored as the name. *)
Lemma missing_name_accepted :
  let req := bob_without_name in
  req !! "name" = None
  /\ post_api_form req alice_store
     = (mkStore true
          (Some {| rows := [alice; mkUser 2 "undefined" "bob@example.com" 41];
                   next_id := 3 |}),
        {| status := 200; body := BObject req |}).
Proof. vm_compute. split; reflexivity. Qed.

(** C5, as amended: a missing field goes into the statement as the text
    undefined, without any check.  When it is the age that is missing (and
    name and email hold no single quote or NUL) the statement ends in
    [undefined);], the store rejects it and the create answers 500 with the
    rows unchanged.  When the age is an integer of the INT range and the
    name or the email is missing, the word undefined is the value inside the
    quotes: if the resulting name and email are new to the table (and the
    other of the two is a string of at most 255 characters without single
    quote or NUL), the create answers 200 and stores that row. *)
Theorem missing_fields (req_body : gmap string JsVal) (st : Store) :
  let n := js_to_string (req_body !! "name") in
  let e := js_to_string (req_body !! "email") in
  (req_body !! "age" = None ->
   plain_field (req_body !! "name") = true ->
   plain_field (req_body !! "email") = true ->
   exists err,
     post_api_form req_body st
     = ((query (insert_text n e "undefined") st).1,
        {| status := 500; body := BError err |})
     /\ all_rows (post_api_form req_body st).1 = all_rows st)
  /\ (forall (t : Table) (a : Z),
        req_body !! "name" = None \/ req_body !! "email" = None ->
        req_body !! "age" = Some (JNum a) ->
        plain_field (req_body !! "name") = true ->
        plain_field (req_body !! "email") = true ->
        (String.length n <= 255)%nat -> (String.length e <= 255)%nat ->
        INT_MIN <= a <= INT_MAX ->
        reachable st = true -> users st = Some t ->
        table_ok t -> next_id t <= INT_MAX ->
        n ∉ u_name <$> rows t -> e ∉ u_email <$> rows t ->
        (n = "undefined" \/ e = "undefined")
        /\ post_api_form req_body st
           = (mkStore true
                (Some {| rows := rows t ++ [mkUser (next_id t) n e a];
                         next_id := next_id t + 1 |}),
              {| status := 200; body := BObject req_body |})).
Proof.
  intros n e. split.
  - intros Ha Hn He. unfold post_api_form. rewrite Ha. simpl js_to_string.
    fold n. fold e.
    destruct (query_insert_letters_fails n e "undefined" st
                (js_to_string_plain _ Hn) (js_to_string_plain _ He) eq_refl)
      as (err & Hq & Hrows).
    destruct (query _ st) as [st' [err'|res]]; simpl in *; [|discriminate].
    exists err'. split; [reflexivity|exact Hrows].
  - intros t a Hmiss Ha Hn He Hln Hle Hrange Hr Hu Hok Hmax Hnn Hne.
    split.
    { destruct Hmiss as [H|H]; [left; unfold n|right; unfold e];
        now rewrite H. }
    destruct (parse_insert_number n e a
                (js_to_string_plain _ Hn) (js_to_string_plain _ He))
      as (neg & ds & Hp & Hv).
    pose proof (create_accepted req_body st t neg ds) as H.
    rewrite Ha in H. simpl js_to_string in H. cbv zeta in H.
    fold n in H. fold e in H. rewrite Hv in H. now apply H.
Qed.

Lemma missing_fields_witness :
  (exists err,
     post_api_form (bob_without_age)
       alice_store
     = (alice_store, {| status := 500; body := BError err |}))
  /\ post_api_form bob_without_name
       alice_store
     = (mkStore true
          (Some {| rows := [alice; mkUser 2 "undefined" "bob@example.com" 41];
                   next_id := 3 |}),
        {| status := 200;
           body := BObject bob_without_name |}).
Proof.
  split.
  - destruct (proj1 (missing_fields
                       bob_without_age
                       alice_store) eq_refl eq_refl eq_refl)
      as (err & H & _).
    exists err. exact H.
  - apply (proj2 (missing_fields
                    bob_without_name
                    alice_store) (mkTable [alice] 2) 41);
      try reflexivity; try (left; reflexivity);
      try (vm_compute; intuition discriminate); try (vm_compute; lia);
      try absent.
    repeat constructor.
Defined.

(** C1, on the code: a name with a single quote is not stored as data.  The
    name O'Brien ends the literal early and the statement is rejected as a
    syntax error (500, nothing stored).  The crafted name is read as an
    insert of the row (x, empty email, 0) followed by DROP TABLE users: the
    create answers 200, the table is gone, and list-users then answers
    500. *)
Theorem quoted_name_read_as_sql :
  let obrien := form (JStr "O'Brien") (JStr "ob@example.com") (JNum 30) in
  let crafted :=
    form (JStr "x', '', 0); DROP TABLE users; --") (JStr "e@example.com") (JNum 30) in
  post_api_form obrien alice_store
  = (alice_store, {| status := 500; body := BError syntax_error |})
  /\ parse_text (insert_text "x', '', 0); DROP TABLE users; --" "e@example.com" "30")
     = Some [SInsert [(EStr "x", EStr "", ENum false "0" None)]; SDrop]
  /\ post_api_form crafted alice_store
     = (mkStore true None, {| status := 200; body := BObject crafted |})
  /\ get_api_all (post_api_form crafted alice_store).1
     = (mkStore true None, {| status := 500; body := BError undefined_table |}).
Proof. vm_compute. repeat split; reflexivity. Qed.

(** C3, on the code: two requests carry the same name, a text that closes
    the literal and adds DELETE FROM users.  The first create answers 200,
    and so does the second. *)
Theorem same_name_created_twice :
  let name := JStr "a', 'b', 1); DELETE FROM users; --" in
  let first := form name (JStr "c@example.com") (JNum 30) in
  let second := form name (JStr "d@example.com") (JNum 31) in
  first !! "name" = second !! "name"
  /\ post_api_form first alice_store
     = (mkStore true (Some {| rows := []; next_id := 3 |}),
        {| status := 200; body := BObject first |})
  /\ post_api_form second (post_api_form first alice_store).1
     = (mkStore true (Some {| rows := []; next_id := 4 |}),
        {| status := 200; body := BObject second |}).
Proof. vm_compute. repeat split; reflexivity. Qed.

(** C9, on the code: create-user with the crafted name removes the row of
    alice, which existed before the operation; once the start-up statement
    has made the table again, the next create hands out alice's id 1 a
    second time. *)
Theorem create_drops_existing_rows :
  let crafted :=
    form (JStr "x', '', 0); DROP TABLE users; --") (JStr "e@example.com") (JNum 30) in
  let bob := form (JStr "bob") (JStr "bob@example.com") (JNum 41) in
  let after := (post_api_form crafted alice_store).1 in
  all_rows alice_store = [alice]
  /\ all_rows after = []
  /\ all_rows (post_api_form bob (createTable after)).1
     = [mkUser (u_id alice) "bob" "bob@example.com" 41].
Proof. vm_compute. repeat split; reflexivity. Qed.

(** * Further properties of the service *)

Section Startup.

Lemma parse_create : parse_text createTable_text = Some [SCreate].
Proof. vm_compute. reflexivity. Qed.

Lemma store_eta (st : Store) : mkStore (reachable st) (users st) = st.
Proof. now destruct st. Qed.

Lemma rollback_none (st : Store) (seq : Z) :
  users st = None -> rollback st seq = st.
Proof. destruct st as [r u]. simpl. intros ->. reflexivity. Qed.

Lemma createTable_value (st : Store) :
  createTable st =
  if reachable st then
    mkStore true (Some (match users st with
                        | Some t => t
                        | None => mkTable [] 1
                        end))
  else st.
Proof.
  unfold createTable, query. destruct (reachable st) eqn:Hr; [|reflexivity].
  rewrite parse_create. simpl. destruct (users st); reflexivity.
Qed.

End Startup.

(** X1: the start-up statement is idempotent: running [createTable] a
    second time changes nothing, whatever the store. *)
Theorem createTable_idempotent (st : Store) :
  createTable (createTable st) = createTable st.
Proof.
  rewrite (createTable_value st). destruct (reachable st) eqn:Hr.
  - rewrite createTable_value. reflexivity.
  - rewrite createTable_value, Hr. reflexivity.
Qed.

(** X2: on a reachable store [createTable] leaves a users table in place:
    the table that was there, with its rows and its sequence, or else an
    empty table whose sequence starts at 1. *)
Theorem createTable_keeps_table (st : Store) :
  reachable st = true ->
  (forall t, users st = Some t -> createTable st = st)
  /\ (users st = None ->
      createTable st = mkStore true (Some (mkTable [] 1))).
Proof.
  intros Hr. rewrite createTable_value, Hr. split.
  - intros t Hu. rewrite Hu, <- Hr, <- Hu. apply store_eta.
  - intros ->. reflexivity.
Qed.

Lemma createTable_keeps_table_witness :
  createTable alice_store = alice_store
  /\ createTable (mkStore true None) = mkStore true (Some (mkTable [] 1)).
Proof.
  split.
  - exact (proj1 (createTable_keeps_table alice_store eq_refl)
             (mkTable [alice] 2) eq_refl).
  - exact (proj2 (createTable_keeps_table (mkStore true None) eq_refl) eq_refl).
Defined.

Lemma get_api_all_store (st : Store) : (get_api_all st).1 = st.
Proof.
  unfold get_api_all, query. destruct (reachable st) eqn:Hr; [|reflexivity].
  rewrite parse_select. simpl.
  destruct (users st) as [t|] eqn:Hu; simpl.
  - rewrite <- Hr, <- Hu. apply store_eta.
  - now apply rollback_none.
Qed.

(** X3: reads never write: after any sequence of health checks and
    list-users requests the store is the store before, whether it is
    reachable or not and whether the table exists or not. *)
Theorem reads_leave_store (rs : list Request) (st : Store) :
  forallb read_request rs = true -> run rs st = st.
Proof.
  revert st. induction rs as [|r rs IH]; intros st; simpl; [reflexivity|].
  intros H. apply andb_prop in H as [Hr Hrs].
  destruct r as [| |b]; simpl in *; try discriminate.
  - now apply IH.
  - rewrite get_api_all_store. now apply IH.
Qed.

Lemma reads_leave_store_witness :
  run [GET_api_all; GET_api; GET_api_all] (mkStore true None) = mkStore true None.
Proof.
  apply (reads_leave_store [GET_api_all; GET_api; GET_api_all] (mkStore true None)).
  reflexivity.
Defined.

(** X4: the answer of list-users on a reachable store: 200 with the rows of
    the table when the table exists, 500 with the store's error when the
    table is missing. *)
Theorem list_users_answer (st : Store) :
  reachable st = true ->
  (get_api_all st).2 =
  match users st with
  | Some t => {| status := 200; body := BRows (rows t) |}
  | None => {| status := 500; body := BError undefined_table |}
  end.
Proof.
  intros Hr. unfold get_api_all, query. rewrite Hr, parse_select. simpl.
  destruct (users st) as [t|]; reflexivity.
Qed.

Lemma list_users_answer_witness :
  (get_api_all alice_store).2 = {| status := 200; body := BRows [alice] |}.
Proof.
  exact (list_users_answer alice_store eq_refl).
Defined.

Section Rejection.

(** A rejected query leaves the store as it was, up to the position of the
    sequence. *)
Lemma query_error_store (text : string) (st : Store) (err : SqlError) :
  (query text st).2 = inl err ->
  (query text st).1 = st \/ exists seq, (query text st).1 = rollback st seq.
Proof.
  unfold query. destruct (reachable st); simpl; [|now left].
  destruct (parse_text text) as [ss|]; [|now left].
  destruct (exec_all ss _ _ _) as [[e seq]|[fin rs]]; simpl; [eauto|discriminate].
Qed.

Lemma rollback_users_none (st : Store) (seq : Z) :
  users (rollback st seq) = None <-> users st = None.
Proof. unfold rollback. simpl. destruct (users st); split; congruence. Qed.

Lemma lex_insert_head (n e a : string) (ts : list token) :
  lex (insert_text n e a) = Some ts -> exists r, ts = insert_head ++ r.
Proof.
  unfold lex, insert_text. rewrite lex_run_app, lex_template_head.
  destruct (lex_run (LStr "") _) as [[o st]|]; [|discriminate].
  destruct (lex_finish st) as [l|]; [|discriminate].
  intros [= <-]. exists (o ++ l). now rewrite app_assoc.
Qed.

Lemma split_stmts_first (cur r : list token) :
  exists x y, split_stmts cur r = (rev cur ++ x) :: y.
Proof.
  revert cur. induction r as [|t r IH]; intros cur.
  - exists [], []. simpl. now rewrite app_nil_r.
  - assert (Hcons : exists x y, split_stmts (t :: cur) r = (rev cur ++ x) :: y).
    { destruct (IH (t :: cur)) as (x & y & ->). exists (t :: x), y.
      simpl. now rewrite <- app_assoc. }
    destruct t; try exact Hcons.
    exists [], (split_stmts [] r). simpl. now rewrite app_nil_r.
Qed.

(** Whatever the three fields hold, a text of the template that parses
    starts with an insert into users. *)
Lemma parse_insert_first (r : list token) (ss : list Stmt) :
  parse (insert_head ++ r) = Some ss ->
  exists vals ss', ss = SInsert vals :: ss'.
Proof.
  unfold parse.
  change (split_stmts [] (insert_head ++ r))
    with (split_stmts (rev insert_head) r).
  destruct (split_stmts_first (rev insert_head) r) as (x & y & ->).
  change (rev (rev insert_head)) with insert_head.
  change (parse_all ((insert_head ++ x) :: y))
    with (match match parse_rows (signed (TLParen :: x)) with
                | Some rs => Some (SInsert rs)
                | None => None
                end, parse_all y with
          | Some st, Some sts => Some (st :: sts)
          | _, _ => None
          end).
  destruct (parse_rows _) as [rs|]; [|discriminate].
  destruct (parse_all y) as [sts|]; [|discriminate].
  intros [= <-]. eauto.
Qed.

Lemma create_text_first (n e a : string) (ss : list Stmt) :
  parse_text (insert_text n e a) = Some ss ->
  exists vals ss', ss = SInsert vals :: ss'.
Proof.
  unfold parse_text. destruct (lex _) as [ts|] eqn:Hl; [|discriminate].
  destruct (lex_insert_head _ _ _ _ Hl) as (r & ->).
  apply parse_insert_first.
Qed.

End Rejection.

(** X5: a create-user request that is answered 500 leaves the rows of the
    table as they were, the store reachable or unreachable as before, and
    the table present or absent as before (request bodies whose statement
    holds nothing but literals). *)
Theorem create_failure_keeps_rows (req_body : gmap string JsVal) (st : Store) :
  literal_body req_body = true ->
  status (post_api_form req_body st).2 = 500 ->
  all_rows (post_api_form req_body st).1 = all_rows st
  /\ reachable (post_api_form req_body st).1 = reachable st
  /\ (users (post_api_form req_body st).1 = None <-> users st = None).
Proof.
  intros _. unfold post_api_form.
  destruct (query _ st) as [st' [err|res]] eqn:Hq; simpl; [|discriminate].
  intros _.
  pose proof (query_error_store _ st err (f_equal snd Hq)) as H.
  rewrite Hq in H. simpl in H. destruct H as [H|[seq H]]; subst st'.
  - repeat split; auto.
  - split; [apply rollback_rows|]. split; [reflexivity|].
    apply rollback_users_none.
Qed.

Lemma create_failure_keeps_rows_witness :
  all_rows (post_api_form (form (JStr "alice") (JStr "a2@example.com") (JNum 5))
              alice_store).1 = all_rows alice_store.
Proof.
  refine (proj1 (create_failure_keeps_rows
                   (form (JStr "alice") (JStr "a2@example.com") (JNum 5))
                   alice_store _ _)).
  - reflexivity.
  - vm_compute. reflexivity.
Defined.

(** X7: when the users table does not exist, every create-user request is
    answered 500 and the store stays as it is: no request body, however
    crafted, gets a row in or the table back. *)
Theorem create_without_table (req_body : gmap string JsVal) (st : Store) :
  users st = None ->
  exists err,
    post_api_form req_body st = (st, {| status := 500; body := BError err |}).
Proof.
  intros Hu. unfold post_api_form, query.
  destruct (reachable st) eqn:Hr; simpl; [|eauto].
  destruct (parse_text _) as [ss|] eqn:Hp; [|eauto].
  destruct (create_text_first _ _ _ _ Hp) as (vals & ss' & ->).
  rewrite Hu. simpl. rewrite (rollback_none _ _ Hu). eauto.
Qed.

Lemma create_without_table_witness :
  exists err,
    post_api_form
      (form (JStr "x', '', 0); DROP TABLE users; --") (JStr "e@example.com") (JNum 30))
      (mkStore true None)
    = (mkStore true None, {| status := 500; body := BError err |}).
Proof.
  exact (create_without_table
           (form (JStr "x', '', 0); DROP TABLE users; --") (JStr "e@example.com") (JNum 30))
           (mkStore true None) eq_refl).
Defined.

(** X8: the store effect and the status of a create depend on the name,
    email and age fields only: any other field of the body, an id the
    caller sends included, is ignored by the store. *)
Theorem extra_fields_ignored (b1 b2 : gmap string JsVal) (st : Store) :
  b1 !! "name" = b2 !! "name" ->
  b1 !! "email" = b2 !! "email" ->
  b1 !! "age" = b2 !! "age" ->
  (post_api_form b1 st).1 = (post_api_form b2 st).1
  /\ status (post_api_form b1 st).2 = status (post_api_form b2 st).2.
Proof.
  intros Hn He Ha. unfold post_api_form. rewrite Hn, He, Ha.
  destruct (query _ st) as [st' [err|res]]; split; reflexivity.
Qed.

Lemma extra_fields_ignored_witness :
  (post_api_form
     (<["id" := JNum 99]> (form (JStr "bob") (JStr "bob@example.com") (JNum 41)))
     alice_store).1
  = (post_api_form (form (JStr "bob") (JStr "bob@example.com") (JNum 41))
       alice_store).1.
Proof.
  refine (proj1 (extra_fields_ignored
                   (<["id" := JNum 99]>
                      (form (JStr "bob") (JStr "bob@example.com") (JNum 41)))
                   (form (JStr "bob") (JStr "bob@example.com") (JNum 41))
                   alice_store _ _ _)); reflexivity.
Defined.

Section Constraints.

Lemma int4in_range (s : string) (z : Z) :
  int4in s = inr z -> INT_MIN <= z <= INT_MAX.
Proof.
  unfold int4in.
  match goal with
  | |- context [let '(neg, s2) := ?p in _] => destruct p as [neg s2]
  end.
  destruct (span_digits s2) as [d r]. destruct d as [|c d]; [discriminate|].
  destruct (all_chars is_space r); [|discriminate].
  match goal with
  | |- context [in_int_range ?v] => destruct (in_int_range v) eqn:Hv
  end; [|discriminate].
  intros [= <-]. unfold in_int_range in Hv.
  apply andb_prop in Hv as [H1 H2]. apply Z.leb_le in H1, H2. lia.
Qed.

Lemma to_int_range (e : Expr) (z : Z) :
  to_int e = inr (Some z) -> INT_MIN <= z <= INT_MAX.
Proof.
  destruct e as [s|neg ip fr|s]; simpl.
  - destruct (int4in s) as [err|z'] eqn:H; [discriminate|].
    intros [= <-]. now apply int4in_range in H.
  - destruct (in_int_range _) eqn:Hv; [|discriminate].
    intros [= <-]. unfold in_int_range in Hv.
    apply andb_prop in Hv as [H1 H2]. apply Z.leb_le in H1, H2. lia.
  - destruct (is_null_word s); [discriminate|].
    destruct (is_bool_word s); discriminate.
Qed.

Lemma coerce_row_ok (r : Expr * Expr * Expr) (v : Values) :
  coerce_row r = inr v -> values_ok v.
Proof.
  destruct r as [[en ee] ea]. unfold coerce_row.
  destruct (to_varchar en) as [?|n]; [discriminate|].
  destruct (to_varchar ee) as [?|e]; [discriminate|].
  destruct (to_int ea) as [?|a] eqn:Ha; [discriminate|].
  intros [= <-]. destruct a as [a|]; simpl; [|exact I].
  now apply to_int_range in Ha.
Qed.

Lemma coerce_rows_ok (rs : list (Expr * Expr * Expr)) (vs : list Values) :
  coerce_rows rs = inr vs -> Forall values_ok vs.
Proof.
  revert vs. induction rs as [|r rs IH]; intros vs; simpl.
  - intros [= <-]. constructor.
  - destruct (coerce_row r) as [?|v] eqn:Hr; [discriminate|].
    destruct (coerce_rows rs) as [?|vs']; [discriminate|].
    intros [= <-]. constructor; [now apply coerce_row_ok in Hr|now apply IH].
Qed.

Lemma NoDup_snoc_fresh {A} (l : list A) (x : A) :
  NoDup l -> x ∉ l -> NoDup (l ++ [x]).
Proof.
  intros Hl Hx. apply NoDup_app. split; [assumption|]. split.
  - intros y Hy Hin. apply list_elem_of_singleton in Hin. now subst.
  - apply NoDup_singleton.
Qed.

Lemma insert_row_wf (t t' : Table) (v : Values) :
  rows_wf (rows t) -> values_ok v -> insert_row t v = inr t' ->
  rows_wf (rows t').
Proof.
  intros (Hid & Hn & He & Ha) Hv. unfold insert_row.
  destruct (INT_MAX <? next_id t); [discriminate|].
  destruct v as [[[n|] [e|]] [a|]]; try discriminate.
  destruct (bool_decide (next_id t ∈ u_id <$> rows t)) eqn:H1; [discriminate|].
  destruct (bool_decide (n ∈ u_name <$> rows t)) eqn:H2; [discriminate|].
  destruct (bool_decide (e ∈ u_email <$> rows t)) eqn:H3; [discriminate|].
  apply bool_decide_eq_false in H1, H2, H3.
  intros [= <-]. simpl. unfold rows_wf. rewrite !fmap_app. simpl.
  repeat split; try (now apply NoDup_snoc_fresh).
  apply Forall_app. split; [assumption|]. constructor; [exact Hv|constructor].
Qed.

Lemma insert_rows_wf (vs : list Values) (t t' : Table) :
  rows_wf (rows t) -> Forall values_ok vs -> insert_rows t vs = inr t' ->
  rows_wf (rows t').
Proof.
  revert t. induction vs as [|v vs IH]; intros t Hwf Hvs; simpl.
  - now intros [= <-].
  - destruct (insert_row t v) as [?|t1] eqn:H1; [discriminate|].
    inversion Hvs; subst. apply IH; [|assumption].
    eapply insert_row_wf; eauto.
Qed.

Lemma rows_wf_nil : rows_wf [].
Proof. repeat split; constructor. Qed.

Lemma exec_stmt_wf (s : Stmt) (cur cur' : option Table) (res : list User) :
  rows_wf (cur_rows cur) -> exec_stmt s cur = inr (cur', res) ->
  rows_wf (cur_rows cur').
Proof.
  intros Hwf. destruct s, cur as [t|]; simpl; try discriminate;
    try (intros [= <- _]; first [exact Hwf|exact rows_wf_nil]).
  destruct (coerce_rows vals) as [?|vs] eqn:Hc; [discriminate|].
  destruct (insert_rows t vs) as [[? ?]|t1] eqn:H1; [discriminate|].
  intros [= <- _]. simpl.
  exact (insert_rows_wf vs t t1 Hwf (coerce_rows_ok _ _ Hc) H1).
Qed.

Lemma exec_all_wf (ss : list Stmt) (cur fin : option Table) (own : bool)
      (seq : Z) (rs : list (list User)) :
  rows_wf (cur_rows cur) -> exec_all ss cur own seq = inr (fin, rs) ->
  rows_wf (cur_rows fin).
Proof.
  revert cur own seq rs. induction ss as [|s ss IH]; intros cur own seq rs Hwf.
  - simpl. now intros [= <- _].
  - simpl. destruct (exec_stmt s cur) as [[? ?]|[cur' res]] eqn:Hs; [discriminate|].
    destruct (exec_all ss cur' _ _) as [[? ?]|[fin' rs']] eqn:Ha; [discriminate|].
    intros [= <- _]. eapply IH; [|exact Ha]. eapply exec_stmt_wf; eauto.
Qed.

(** Every query, whatever its text, keeps ids, names and emails pairwise
    distinct and ages in the INT range. *)
Lemma query_rows_wf (text : string) (st : Store) :
  rows_wf (all_rows st) -> rows_wf (all_rows (query text st).1).
Proof.
  intros Hwf. unfold query. destruct (reachable st); simpl; [|assumption].
  destruct (parse_text text) as [ss|]; [|assumption].
  destruct (exec_all ss _ _ _) as [[err seq]|[fin rs]] eqn:Ha; simpl.
  - now rewrite rollback_rows.
  - apply (exec_all_wf _ _ _ _ _ _ Hwf Ha).
Qed.

Lemma query_store_wf (text : string) (st : Store) :
  store_wf st -> store_wf (query text st).1.
Proof.
  intros [Hok Hwf]. split; [now apply query_store_ok|now apply query_rows_wf].
Qed.

Lemma serve_store_wf (r : Request) (st : Store) :
  store_wf st -> store_wf (serve r st).1.
Proof.
  intros Hwf. destruct r as [| |req_body]; simpl; [assumption| |].
  - unfold get_api_all.
    pose proof (query_store_wf "SELECT * FROM users" st Hwf) as Hq.
    destruct (query _ st) as [st' [err|res]]; exact Hq.
  - unfold post_api_form.
    pose proof (query_store_wf
                  (insert_text (js_to_string (req_body !! "name"))
                     (js_to_string (req_body !! "email"))
                     (js_to_string (req_body !! "age"))) st Hwf) as Hq.
    destruct (query _ st) as [st' [err|res]]; exact Hq.
Qed.

Lemma run_store_wf (rs : list Request) (st : Store) :
  store_wf st -> store_wf (run rs st).
Proof.
  revert st. induction rs as [|r rs IH]; intros st Hwf; simpl; [assumption|].
  apply IH. now apply serve_store_wf.
Qed.

Lemma fresh_store_wf : store_wf fresh_store.
Proof. split; [apply fresh_store_ok|apply rows_wf_nil]. Qed.

Lemma get_api_all_body (st : Store) (l : list User) :
  body (get_api_all st).2 = BRows l -> l = all_rows st.
Proof.
  unfold get_api_all, query, all_rows. rewrite parse_select.
  destruct (reachable st); simpl; [|discriminate].
  destruct (users st) as [t|]; simpl; [|discriminate].
  now intros [= <-].
Qed.

End Constraints.

(** X9: the constraints of the schema hold after every sequence of
    requests whose creates hold nothing but literals: starting from a store
    whose ids are below the sequence and whose ids, names and emails are
    pairwise distinct with ages in the INT range, the store reached has the
    same properties. *)
Theorem requests_keep_constraints (rs : list Request) (st : Store) :
  forallb literal_request rs = true ->
  store_wf st -> store_wf (run rs st).
Proof. intros _. apply run_store_wf. Qed.

Lemma requests_keep_constraints_witness :
  store_wf
    (run [POST_api_form (form (JStr "alice") (JStr "alice@example.com") (JNum 30));
          POST_api_form (form (JStr "alice") (JStr "other@example.com") (JNum 31));
          POST_api_form (form (JStr "bob") (JStr "bob@example.com") (JStr "41"));
          GET_api_all; GET_api]
       fresh_store).
Proof.
  apply (requests_keep_constraints
           [POST_api_form (form (JStr "alice") (JStr "alice@example.com") (JNum 30));
            POST_api_form (form (JStr "alice") (JStr "other@example.com") (JNum 31));
            POST_api_form (form (JStr "bob") (JStr "bob@example.com") (JStr "41"));
            GET_api_all; GET_api]
           fresh_store).
  - reflexivity.
  - split; [exact fresh_store_ok|exact rows_wf_nil].
Defined.

(** X10: for name and email strings of at most 255 characters without
    single quote or NUL and an integer age, on a reachable store with a
    table whose ids are below the sequence, create-user answers 200 exactly
    when the age is in the INT range, the sequence is not exhausted, and
    neither the name nor the email is in the table. *)
Theorem create_accepted_iff (req_body : gmap string JsVal) (st : Store)
        (t : Table) (n e : string) (a : Z) :
  req_body !! "name" = Some (JStr n) ->
  req_body !! "email" = Some (JStr e) ->
  req_body !! "age" = Some (JNum a) ->
  plain n = true -> plain e = true ->
  (String.length n <= 255)%nat -> (String.length e <= 255)%nat ->
  reachable st = true -> users st = Some t -> table_ok t ->
  status (post_api_form req_body st).2 = 200
  <-> (INT_MIN <= a <= INT_MAX /\ next_id t <= INT_MAX
       /\ (n ∉ u_name <$> rows t) /\ (e ∉ u_email <$> rows t)).
Proof.
  intros Hbn Hbe Hba Hpn Hpe Hln Hle Hr Hu Hok.
  destruct (parse_insert_number n e a Hpn Hpe) as (neg & ds & Hp & Hv).
  unfold post_api_form. rewrite Hbn, Hbe, Hba. simpl js_to_string.
  rewrite (query_one_insert _ _ _ _ Hr Hu Hp). unfold coerce_row.
  rewrite (to_varchar_short _ Hln), (to_varchar_short _ Hle).
  unfold to_int. rewrite Hv. unfold in_int_range.
  destruct (INT_MIN <=? a) eqn:H1; simpl.
  2: { apply Z.leb_gt in H1. split; [discriminate|lia]. }
  destruct (a <=? INT_MAX) eqn:H2; simpl.
  2: { apply Z.leb_gt in H2. split; [discriminate|lia]. }
  apply Z.leb_le in H1, H2.
  unfold insert_row. destruct (INT_MAX <? next_id t) eqn:H3; simpl.
  { apply Z.ltb_lt in H3. split; [discriminate|lia]. }
  apply Z.ltb_ge in H3. rewrite (fresh_id _ Hok).
  destruct (bool_decide (n ∈ u_name <$> rows t)) eqn:H4; simpl.
  { apply bool_decide_eq_true in H4. split; [discriminate|tauto]. }
  destruct (bool_decide (e ∈ u_email <$> rows t)) eqn:H5; simpl.
  { apply bool_decide_eq_true in H5. split; [discriminate|tauto]. }
  apply bool_decide_eq_false in H4, H5. split; [|reflexivity].
  intros _. repeat split; auto; lia.
Qed.

Lemma create_accepted_iff_witness :
  status (post_api_form (form (JStr "bob") (JStr "bob@example.com") (JNum 41))
            alice_store).2 = 200
  <-> (INT_MIN <= 41 <= INT_MAX /\ 2 <= INT_MAX
       /\ ("bob" ∉ u_name <$> [alice]) /\ ("bob@example.com" ∉ u_email <$> [alice])).
Proof.
  apply (create_accepted_iff
           (form (JStr "bob") (JStr "bob@example.com") (JNum 41))
           alice_store (mkTable [alice] 2) "bob" "bob@example.com" 41);
    try reflexivity; try (vm_compute; lia).
  repeat constructor.
Defined.

(** X11: a create that a unique constraint rejects still uses up one value
    of the id sequence: when a valid create follows the rejected one, its
    row gets the id after the one that was skipped. *)
Theorem rejected_create_leaves_gap (dup new : gmap string JsVal) (st : Store)
        (t : Table) (n e n2 e2 : string) (a a2 : Z) :
  dup !! "name" = Some (JStr n) -> dup !! "email" = Some (JStr e) ->
  dup !! "age" = Some (JNum a) ->
  new !! "name" = Some (JStr n2) -> new !! "email" = Some (JStr e2) ->
  new !! "age" = Some (JNum a2) ->
  plain n = true -> plain e = true -> plain n2 = true -> plain e2 = true ->
  (String.length n <= 255)%nat -> (String.length e <= 255)%nat ->
  (String.length n2 <= 255)%nat -> (String.length e2 <= 255)%nat ->
  INT_MIN <= a <= INT_MAX -> INT_MIN <= a2 <= INT_MAX ->
  reachable st = true -> users st = Some t ->
  table_ok t -> next_id t + 1 <= INT_MAX ->
  n ∈ u_name <$> rows t \/ e ∈ u_email <$> rows t ->
  n2 ∉ u_name <$> rows t -> e2 ∉ u_email <$> rows t ->
  (post_api_form dup st).1
  = mkStore true (Some {| rows := rows t; next_id := next_id t + 1 |})
  /\ all_rows (post_api_form new (post_api_form dup st).1).1
     = rows t ++ [mkUser (next_id t + 1) n2 e2 a2].
Proof.
  intros Hdn Hde Hda Hnn Hne Hna Hpn Hpe Hpn2 Hpe2 Hln Hle Hln2 Hle2
         Hra Hra2 Hr Hu Hok Hmax Hdup Hf1 Hf2.
  assert (Hfirst : (post_api_form dup st).1
                   = mkStore true (Some {| rows := rows t; next_id := next_id t + 1 |})).
  { destruct (parse_insert_number n e a Hpn Hpe) as (neg & ds & Hp & Hv).
    unfold post_api_form. rewrite Hdn, Hde, Hda. simpl js_to_string.
    rewrite (query_one_insert _ _ _ _ Hr Hu Hp). unfold coerce_row.
    rewrite (to_varchar_short _ Hln), (to_varchar_short _ Hle).
    rewrite to_int_number
      by (rewrite Hv; unfold in_int_range; apply andb_true_intro;
          split; apply Z.leb_le; lia).
    unfold insert_row.
    replace (INT_MAX <? next_id t) with false by (symmetry; apply Z.ltb_ge; lia).
    rewrite (fresh_id _ Hok).
    destruct (bool_decide (n ∈ u_name <$> rows t)) eqn:H4; simpl.
    - unfold rollback. now rewrite Hr, Hu.
    - destruct (bool_decide (e ∈ u_email <$> rows t)) eqn:H5; simpl.
      + unfold rollback. now rewrite Hr, Hu.
      + apply bool_decide_eq_false in H4, H5. tauto. }
  split; [exact Hfirst|]. rewrite Hfirst.
  destruct (parse_insert_number n2 e2 a2 Hpn2 Hpe2) as (neg & ds & Hp & Hv).
  pose proof (create_accepted new
                (mkStore true (Some {| rows := rows t; next_id := next_id t + 1 |}))
                {| rows := rows t; next_id := next_id t + 1 |} neg ds) as H.
  rewrite Hnn, Hne, Hna in H. simpl js_to_string in H. cbv zeta in H.
  rewrite Hv in H. rewrite H; auto.
  - unfold table_ok in *. simpl. eapply Forall_impl; [exact Hok|].
    simpl. intros; lia.
Qed.

Lemma rejected_create_leaves_gap_witness :
  all_rows
    (post_api_form (form (JStr "bob") (JStr "bob@example.com") (JNum 41))
       (post_api_form (form (JStr "alice") (JStr "a2@example.com") (JNum 5))
          alice_store).1).1
  = [alice; mkUser 3 "bob" "bob@example.com" 41].
Proof.
  refine (proj2 (rejected_create_leaves_gap
                   (form (JStr "alice") (JStr "a2@example.com") (JNum 5))
                   (form (JStr "bob") (JStr "bob@example.com") (JNum 41))
                   alice_store (mkTable [alice] 2)
                   "alice" "a2@example.com" "bob" "bob@example.com" 5 41
                   _ _ _ _ _ _ _ _ _ _ _ _ _ _ _ _ _ _ _ _ _ _ _));
    try reflexivity; try (vm_compute; lia);
    try (vm_compute; intuition discriminate); try absent.
  - repeat constructor.
  - left. cbn. constructor.
Defined.

(** X12: on a reachable store, a name of more than 255 ASCII characters,
    without single quote or NUL, whose part beyond the 255th character is
    not all blanks, is rejected by VARCHAR(255): the create answers 500 and
    the rows stay. *)
Theorem long_name_rejected (req_body : gmap string JsVal) (st : Store)
        (n : string) (a : Z) :
  reachable st = true ->
  req_body !! "name" = Some (JStr n) ->
  req_body !! "age" = Some (JNum a) ->
  plain n = true -> ascii_text n = true ->
  plain_field (req_body !! "email") = true ->
  (255 < String.length n)%nat ->
  only_blanks (substring 255 (String.length n - 255) n) = false ->
  status (post_api_form req_body st).2 = 500
  /\ all_rows (post_api_form req_body st).1 = all_rows st.
Proof.
  intros Hr Hbn Hba Hpn _ Hpe Hlen Hexcess.
  destruct (parse_insert_number n (js_to_string (req_body !! "email")) a
              Hpn (js_to_string_plain _ Hpe)) as (neg & ds & Hp & Hv).
  unfold post_api_form. rewrite Hbn, Hba. simpl (js_to_string (Some _)).
  destruct (users st) as [t|] eqn:Hu.
  2: { unfold query. rewrite Hr, Hp, Hu. simpl.
       split; [reflexivity|apply rollback_rows]. }
  rewrite (query_one_insert _ _ _ _ Hr Hu Hp).
  unfold coerce_row, to_varchar, varchar255.
  replace (Nat.leb (String.length n) 255) with false
    by (symmetry; apply Nat.leb_gt; lia).
  unfold only_blanks in Hexcess. rewrite Hexcess. simpl. split; reflexivity.
Qed.

Lemma long_name_rejected_witness :
  status (post_api_form
            (form (JStr (blanks 255 +:+ "x")) (JStr "bob@example.com") (JNum 41))
            alice_store).2 = 500
  /\ all_rows (post_api_form
                 (form (JStr (blanks 255 +:+ "x")) (JStr "bob@example.com") (JNum 41))
                 alice_store).1 = all_rows alice_store.
Proof.
  apply (long_name_rejected
           (form (JStr (blanks 255 +:+ "x")) (JStr "bob@example.com") (JNum 41))
           alice_store (blanks 255 +:+ "x") 41);
    first [vm_compute; reflexivity | vm_compute; lia].
Defined.

(** X13: a name of more than 255 ASCII characters whose part beyond the
    255th character is all blanks is not rejected: the store keeps its first
    255 characters.  With the other conditions of a valid create the request
    answers 200 and echoes the name as submitted, while the row holds the
    shortened name. *)
Theorem padded_name_truncated (req_body : gmap string JsVal) (st : Store)
        (t : Table) (n e : string) (a : Z) :
  req_body !! "name" = Some (JStr n) ->
  req_body !! "email" = Some (JStr e) ->
  req_body !! "age" = Some (JNum a) ->
  plain n = true -> plain e = true -> ascii_text n = true ->
  (255 < String.length n)%nat ->
  only_blanks (substring 255 (String.length n - 255) n) = true ->
  (String.length e <= 255)%nat ->
  INT_MIN <= a <= INT_MAX ->
  reachable st = true -> users st = Some t ->
  table_ok t -> next_id t <= INT_MAX ->
  substring 0 255 n ∉ u_name <$> rows t -> e ∉ u_email <$> rows t ->
  post_api_form req_body st
  = (mkStore true
       (Some {| rows := rows t ++ [mkUser (next_id t) (substring 0 255 n) e a];
                next_id := next_id t + 1 |}),
     {| status := 200; body := BObject req_body |}).
Proof.
  intros Hbn Hbe Hba Hpn Hpe _ Hlen Hexcess Hle Hrange Hr Hu Hok Hmax Hn He.
  destruct (parse_insert_number n e a Hpn Hpe) as (neg & ds & Hp & Hv).
  unfold post_api_form. rewrite Hbn, Hbe, Hba. simpl js_to_string.
  rewrite (query_one_insert _ _ _ _ Hr Hu Hp).
  unfold coerce_row. rewrite (to_varchar_short _ Hle).
  unfold to_varchar, varchar255.
  replace (Nat.leb (String.length n) 255) with false
    by (symmetry; apply Nat.leb_gt; lia).
  unfold only_blanks in Hexcess. rewrite Hexcess.
  rewrite to_int_number
    by (rewrite Hv; unfold in_int_range; apply andb_true_intro;
        split; apply Z.leb_le; lia).
  rewrite Hv. now rewrite (insert_row_fresh _ _ _ _ Hok Hmax Hn He).
Qed.

Lemma padded_name_truncated_witness :
  all_rows (post_api_form
              (form (JStr ("bob" +:+ blanks 300)) (JStr "bob@example.com") (JNum 41))
              alice_store).1
  = [alice; mkUser 2 ("bob" +:+ blanks 252) "bob@example.com" 41].
Proof.
  rewrite (padded_name_truncated
             (form (JStr ("bob" +:+ blanks 300)) (JStr "bob@example.com") (JNum 41))
             alice_store (mkTable [alice] 2) ("bob" +:+ blanks 300)
             "bob@example.com" 41);
    side.
Defined.

(** X14: for a name and an email without single quote or NUL and an
    integer age, the text that the handler builds from the template is read
    by the store as exactly one statement, the insert of one row whose three
    values are the submitted name, email and age. *)
Theorem template_round_trip (n e : string) (a : Z) :
  plain n = true -> plain e = true ->
  (String.length n <= 255)%nat -> (String.length e <= 255)%nat ->
  INT_MIN <= a <= INT_MAX ->
  exists r,
    parse_text (insert_text n e (js_to_string (Some (JNum a))))
    = Some [SInsert [r]]
    /\ coerce_row r = inr (Some n, Some e, Some a).
Proof.
  intros Hpn Hpe Hln Hle Hrange.
  destruct (parse_insert_number n e a Hpn Hpe) as (neg & ds & Hp & Hv).
  exists (EStr n, EStr e, ENum neg ds None). split; [exact Hp|].
  unfold coerce_row.
  rewrite (to_varchar_short _ Hln), (to_varchar_short _ Hle).
  rewrite to_int_number
    by (rewrite Hv; unfold in_int_range; apply andb_true_intro;
        split; apply Z.leb_le; lia).
  now rewrite Hv.
Qed.

Lemma template_round_trip_witness :
  exists r,
    parse_text (insert_text "it's not" "bob@example.com" "41") <> Some [SInsert [r]]
    /\ parse_text (insert_text "bob" "bob@example.com" (js_to_string (Some (JNum (-41)))))
       = Some [SInsert [r]]
    /\ coerce_row r = inr (Some "bob", Some "bob@example.com", Some (-41)).
Proof.
  assert (Hln : (String.length "bob" <= 255)%nat) by side.
  assert (Hle : (String.length "bob@example.com" <= 255)%nat) by side.
  assert (Hrange : INT_MIN <= -41 <= INT_MAX) by side.
  destruct (template_round_trip "bob" "bob@example.com" (-41)
              eq_refl eq_refl Hln Hle Hrange) as (r & Hp & Hc).
  exists r. split; [|split; assumption].
  vm_compute. discriminate.
Defined.

(** * The pages *)

(** X15: [onChangeForm] edits of different inputs commute, a second edit of
    the same input replaces the first, and an event whose target is none of
    name, age and email leaves the form as it is. *)
Theorem onChangeForm_edits (k1 k2 v1 v2 : string) (user : UserForm) :
  k1 <> k2 ->
  onChangeForm k1 v1 (onChangeForm k2 v2 user)
  = onChangeForm k2 v2 (onChangeForm k1 v1 user)
  /\ onChangeForm k1 v1 (onChangeForm k1 v2 user) = onChangeForm k1 v1 user
  /\ (k1 <> "name" -> k1 <> "age" -> k1 <> "email" ->
      onChangeForm k1 v1 user = user).
Proof.
  intros Hne. unfold onChangeForm. repeat split.
  - destruct (String.eqb_spec k1 "name"), (String.eqb_spec k1 "age"),
      (String.eqb_spec k1 "email"), (String.eqb_spec k2 "name"),
      (String.eqb_spec k2 "age"), (String.eqb_spec k2 "email");
      subst; try congruence; reflexivity.
  - destruct (String.eqb_spec k1 "name"), (String.eqb_spec k1 "age"),
      (String.eqb_spec k1 "email"); reflexivity.
  - intros H1 H2 H3.
    destruct (String.eqb_spec k1 "name"), (String.eqb_spec k1 "age"),
      (String.eqb_spec k1 "email"); congruence.
Qed.

Lemma onChangeForm_edits_witness :
  onChangeForm "name" "bob" (onChangeForm "age" "41" empty_form)
  = onChangeForm "age" "41" (onChangeForm "name" "bob" empty_form).
Proof.
  refine (proj1 (onChangeForm_edits "name" "age" "bob" "41" empty_form _)).
  discriminate.
Defined.

(** X16: typing a name, an age and an email into the empty form and
    submitting it: when the age is a string of digits of at most 2147483647
    and the name and email are new, without single quote or NUL and at most
    255 characters long, the row is stored with that number as age and the
    form is cleared. *)
Theorem createUser_stores_and_clears (st : Store) (t : Table) (n e ds : string) :
  digits ds = true -> digits_value ds <= INT_MAX ->
  plain n = true -> plain e = true ->
  (String.length n <= 255)%nat -> (String.length e <= 255)%nat ->
  reachable st = true -> users st = Some t ->
  table_ok t -> next_id t <= INT_MAX ->
  n ∉ u_name <$> rows t -> e ∉ u_email <$> rows t ->
  createUser
    (onChangeForm "email" e
       (onChangeForm "age" ds (onChangeForm "name" n empty_form))) st
  = (mkStore true
       (Some {| rows := rows t ++ [mkUser (next_id t) n e (digits_value ds)];
                next_id := next_id t + 1 |}),
     empty_form).
Proof.
  intros Hd Hmaxv Hpn Hpe Hln Hle Hr Hu Hok Hmax Hn He.
  change (onChangeForm "email" e
            (onChangeForm "age" ds (onChangeForm "name" n empty_form)))
    with (mkUserForm n ds e).
  unfold createUser.
  pose proof (create_accepted (form_body (mkUserForm n ds e)) st t false ds) as H.
  change (js_to_string (form_body (mkUserForm n ds e) !! "name")) with n in H.
  change (js_to_string (form_body (mkUserForm n ds e) !! "email")) with e in H.
  change (js_to_string (form_body (mkUserForm n ds e) !! "age")) with ds in H.
  cbv zeta in H.
  replace (number_value false ds None) with (digits_value ds) in H
    by (unfold number_value; simpl; lia).
  rewrite H; auto.
  - now apply parse_insert_digits.
  - pose proof (digits_value_nonneg ds). unfold INT_MIN. lia.
Qed.

Lemma createUser_stores_and_clears_witness :
  createUser
    (onChangeForm "email" "bob@example.com"
       (onChangeForm "age" "41" (onChangeForm "name" "bob" empty_form)))
    alice_store
  = (mkStore true
       (Some {| rows := [alice; mkUser 2 "bob" "bob@example.com" 41];
                next_id := 3 |}),
     empty_form).
Proof.
  apply (createUser_stores_and_clears alice_store (mkTable [alice] 2)
           "bob" "bob@example.com" "41"); side.
Defined.

(** X17: submitting a form whose age box is empty or holds letters only
    (name and email without single quote or NUL): the create fails, the
    rows of the table stay, and the form keeps what was typed. *)
Theorem createUser_keeps_rejected_form (user : UserForm) (st : Store) :
  letters (f_age user) = true ->
  plain (f_name user) = true -> plain (f_email user) = true ->
  (createUser user st).2 = user
  /\ all_rows (createUser user st).1 = all_rows st.
Proof.
  intros Ha Hn He. unfold createUser, post_api_form.
  change (js_to_string (form_body user !! "name")) with (f_name user).
  change (js_to_string (form_body user !! "email")) with (f_email user).
  change (js_to_string (form_body user !! "age")) with (f_age user).
  destruct (query_insert_letters_fails (f_name user) (f_email user)
              (f_age user) st Hn He Ha) as (err & Hq & Hrows).
  destruct (query _ st) as [st' [err'|res]]; simpl in *; [|discriminate].
  split; [reflexivity|exact Hrows].
Qed.

Lemma createUser_keeps_rejected_form_witness :
  (createUser (mkUserForm "bob" "abc" "bob@example.com") alice_store).2
  = mkUserForm "bob" "abc" "bob@example.com"
  /\ all_rows (createUser (mkUserForm "bob" "abc" "bob@example.com")
                 alice_store).1 = all_rows alice_store.
Proof.
  apply (createUser_keeps_rejected_form
           (mkUserForm "bob" "abc" "bob@example.com") alice_store);
    reflexivity.
Defined.

(** X18: the list that [GetAllUser] renders after any sequence of requests,
    from a store that satisfies the constraints: the keys of the items are
    pairwise distinct; on a reachable store the items are the rows of the
    table, one item per row, keyed by the row's id; and the list is empty
    when the table is missing, where list-users fails (creates that hold
    nothing but literals). *)
Theorem GetAllUser_keys_distinct (rs : list Request) (st : Store) :
  forallb literal_request rs = true ->
  store_wf st ->
  let items := GetAllUser (fetched_users (get_api_all (run rs st)).2) in
  NoDup (key <$> items)
  /\ (reachable (run rs st) = true ->
      key <$> items = u_id <$> all_rows (run rs st)
      /\ item_name <$> items = u_name <$> all_rows (run rs st)
      /\ item_email <$> items = u_email <$> all_rows (run rs st)
      /\ item_age <$> items = u_age <$> all_rows (run rs st))
  /\ (users (run rs st) = None -> items = []).
Proof.
  intros _ Hwf. pose proof (run_store_wf rs st Hwf) as [_ (Hid & _)].
  set (st' := run rs st) in *. cbv zeta.
  assert (Hmap : forall (l : list User),
             key <$> GetAllUser (Some l) = u_id <$> l
             /\ item_name <$> GetAllUser (Some l) = u_name <$> l
             /\ item_email <$> GetAllUser (Some l) = u_email <$> l
             /\ item_age <$> GetAllUser (Some l) = u_age <$> l).
  { intros l. repeat split; induction l as [|u l IH];
      try reflexivity; cbn in *; f_equal; exact IH. }
  destruct (reachable st') eqn:Hr.
  - destruct (users st') as [t|] eqn:Hu.
    + rewrite (get_api_all_rows _ _ Hr Hu).
      change (fetched_users _) with (Some (rows t)).
      unfold all_rows in *. rewrite Hu in *.
      destruct (Hmap (rows t)) as (H1 & H2 & H3 & H4).
      split; [now rewrite H1|]. split; [intros _; auto|discriminate].
    + unfold get_api_all, query, all_rows. rewrite Hr, parse_select, Hu.
      simpl. split; [constructor|]. split; [intros _|]; repeat split.
  - unfold get_api_all, query. rewrite Hr. simpl.
    split; [constructor|]. split; [discriminate|reflexivity].
Qed.

Lemma GetAllUser_keys_distinct_witness :
  let rs := [POST_api_form (form (JStr "alice") (JStr "alice@example.com") (JNum 30));
             POST_api_form (form (JStr "bob") (JStr "bob@example.com") (JStr "41"));
             POST_api_form (form (JStr "bob") (JStr "bob@example.org") (JNum 7));
             POST_api_form (form (JStr "carol") (JStr "carol@example.com") (JNum 52))] in
  let items := GetAllUser (fetched_users (get_api_all (run rs fresh_store)).2) in
  NoDup (key <$> items) /\ key <$> items = [1; 2; 4].
Proof.
  intros rs items.
  assert (Hlit : forallb literal_request rs = true) by (vm_compute; reflexivity).
  assert (Hwf : store_wf fresh_store)
    by (split; [exact fresh_store_ok|exact rows_wf_nil]).
  destruct (GetAllUser_keys_distinct rs fresh_store Hlit Hwf) as (Hnd & _).
  split; [exact Hnd|].
  vm_compute. reflexivity.
Defined.

Section AppendOnly.

Lemma post_api_form_store (req_body : gmap string JsVal) (st : Store) :
  (post_api_form req_body st).1
  = (query (insert_text (js_to_string (req_body !! "name"))
              (js_to_string (req_body !! "email"))
              (js_to_string (req_body !! "age"))) st).1.
Proof.
  unfold post_api_form. now destruct (query _ st) as [st' [err|res]].
Qed.

(** The text of a body of literals is rejected by the parser (empty age) or
    is one insert of one row. *)
Lemma literal_body_parse (req_body : gmap string JsVal) :
  literal_body req_body = true ->
  parse_text (insert_text (js_to_string (req_body !! "name"))
                (js_to_string (req_body !! "email"))
                (js_to_string (req_body !! "age"))) = None
  \/ exists r,
      parse_text (insert_text (js_to_string (req_body !! "name"))
                    (js_to_string (req_body !! "email"))
                    (js_to_string (req_body !! "age"))) = Some [SInsert [r]].
Proof.
  unfold literal_body. intros H. apply andb_prop in H as [H Ha].
  apply andb_prop in H as [Hn He].
  apply js_to_string_plain in Hn, He.
  set (n := js_to_string (req_body !! "name")) in *.
  set (e := js_to_string (req_body !! "email")) in *.
  assert (Hword : forall w, letters w = true ->
            parse_text (insert_text n e w) = None
            \/ exists r, parse_text (insert_text n e w) = Some [SInsert [r]]).
  { intros w Hw. destruct (string_dec w "") as [->|Hne].
    - left. now apply parse_insert_empty.
    - right. eexists. now apply parse_insert_letters. }
  destruct (req_body !! "age") as [[s|a|b|]|]; simpl in Ha |- *.
  - apply orb_prop in Ha as [Hd|Hl]; [|now apply Hword].
    right. eexists. now apply parse_insert_digits.
  - right. destruct (parse_insert_number n e a Hn He) as (neg & ds & Hp & _).
    eexists. exact Hp.
  - apply Hword. now destruct b.
  - now apply Hword.
  - now apply Hword.
Qed.

(** One create of literals on an existing table: the table stays, its rows
    stay in place, and at most one row is added, with the id the sequence
    stood at. *)
Lemma literal_create_step (req_body : gmap string JsVal) (st : Store) (t : Table) :
  literal_body req_body = true -> users st = Some t ->
  exists t',
    users (post_api_form req_body st).1 = Some t'
    /\ ((rows t' = rows t /\ next_id t <= next_id t')
        \/ exists u, rows t' = rows t ++ [u] /\ u_id u = next_id t
                     /\ next_id t' = next_id t + 1).
Proof.
  intros Hlit Hu. rewrite post_api_form_store.
  destruct (reachable st) eqn:Hr.
  2: { unfold query. rewrite Hr. simpl. exists t. split; [exact Hu|].
       left. split; [reflexivity|lia]. }
  destruct (literal_body_parse _ Hlit) as [Hp|[r Hp]].
  { unfold query. rewrite Hr, Hp. simpl. exists t. split; [exact Hu|].
    left. split; [reflexivity|lia]. }
  rewrite (query_one_insert _ _ _ _ Hr Hu Hp).
  destruct (coerce_row r) as [err|v]; simpl.
  { exists t. split; [exact Hu|]. left. split; [reflexivity|lia]. }
  destruct (insert_row t v) as [[err adv]|t'] eqn:Hi; simpl.
  - unfold rollback. rewrite Hu. eexists. split; [reflexivity|].
    left. simpl. split; [reflexivity|]. eapply insert_row_error_seq; eauto.
  - exists t'. split; [reflexivity|]. right.
    destruct (insert_row_grows _ _ _ Hi) as (Hnx & u & Hrows & Hid). eauto.
Qed.

Lemma run_appends (rs : list Request) (st : Store) (t : Table) :
  forallb literal_request rs = true -> users st = Some t ->
  exists t' l,
    users (run rs st) = Some t'
    /\ rows t' = rows t ++ l
    /\ next_id t <= next_id t'
    /\ Forall (fun u => next_id t <= u_id u) l.
Proof.
  revert st t. induction rs as [|r rs IH]; intros st t Hlit Hu; simpl.
  - exists t, []. rewrite app_nil_r.
    split; [exact Hu|]. split; [reflexivity|]. split; [lia|constructor].
  - simpl in Hlit. apply andb_prop in Hlit as [Hr Hrs].
    assert (Hstep : exists t1,
               users (serve r st).1 = Some t1
               /\ ((rows t1 = rows t /\ next_id t <= next_id t1)
                   \/ exists u, rows t1 = rows t ++ [u] /\ u_id u = next_id t
                                /\ next_id t1 = next_id t + 1)).
    { destruct r as [| |b]; simpl.
      - exists t. split; [exact Hu|]. left. split; [reflexivity|lia].
      - rewrite get_api_all_store. exists t. split; [exact Hu|].
        left. split; [reflexivity|lia].
      - now apply literal_create_step. }
    destruct Hstep as (t1 & Hu1 & Hcase).
    destruct (IH _ _ Hrs Hu1) as (t' & l & Hu' & Hrows & Hnx & Hids).
    destruct Hcase as [[Hsame Hle]|(u & Hadd & Hid & Hnx1)].
    + exists t', l. rewrite Hsame in Hrows.
      split; [exact Hu'|]. split; [exact Hrows|]. split; [lia|].
      eapply Forall_impl; [exact Hids|]. simpl. intros; lia.
    + exists t', (u :: l). rewrite Hadd, <- app_assoc in Hrows.
      split; [exact Hu'|]. split; [exact Hrows|]. split; [lia|].
      constructor; [lia|].
      eapply Forall_impl; [exact Hids|]. simpl. intros; lia.
Qed.

End AppendOnly.

(** X19: requests whose creates hold nothing but literals never update or
    delete a row and never hand out an id twice: after any sequence of them
    the table is still there, the rows that were in it are still in place,
    followed by the rows added since, and every added row has an id larger
    than all the ids that were there before. *)
Theorem literal_requests_append_only (rs : list Request) (st : Store) (t : Table) :
  forallb literal_request rs = true ->
  users st = Some t -> table_ok t ->
  exists t' l,
    users (run rs st) = Some t'
    /\ rows t' = rows t ++ l
    /\ Forall (fun u => Forall (fun u0 => u_id u0 < u_id u) (rows t)) l.
Proof.
  intros Hlit Hu Hok.
  destruct (run_appends rs st t Hlit Hu) as (t' & l & Hu' & Hrows & _ & Hids).
  exists t', l. split; [exact Hu'|]. split; [exact Hrows|].
  eapply Forall_impl; [exact Hids|]. simpl. intros u Hge.
  eapply Forall_impl; [exact Hok|]. simpl. intros; lia.
Qed.

Lemma literal_requests_append_only_witness :
  exists t' l,
    users (run [POST_api_form (form (JStr "alice") (JStr "x@example.com") (JNum 1));
                POST_api_form (form (JStr "bob") (JStr "bob@example.com") (JStr "41"))]
             alice_store) = Some t'
    /\ rows t' = [alice] ++ l
    /\ Forall (fun u => Forall (fun u0 => u_id u0 < u_id u) [alice]) l.
Proof.
  apply (literal_requests_append_only
           [POST_api_form (form (JStr "alice") (JStr "x@example.com") (JNum 1));
            POST_api_form (form (JStr "bob") (JStr "bob@example.com") (JStr "41"))]
           alice_store (mkTable [alice] 2)).
  - reflexivity.
  - reflexivity.
  - repeat constructor.
Defined.
